(** * Graph construction and validation engine of ensmallen_graph

    Shallow embedding of [validate], [Graph::new_directed] and
    [Graph::new_undirected] (Rust, constructors module of the graph crate)
    together with the properties its specification states about them.

    Conventions of the embedding:
    - [NodeT], [EdgeT], [NodeTypeT] and [EdgeTypeT] are unsigned machine
      integers used only as indices, lengths and tags; no arithmetic is done
      on them, so they are embedded as [nat];
    - [WeightT] is an IEEE 754 double, embedded as [spec_float];
    - [HashMap<K, V>] is a [gmap K V], [Vec<T>] and slices are [list T];
    - a call either returns [Ok v], returns [Err e], or panics (a slice
      index out of bounds unwinds the call): the three outcomes of [Result];
    - [rayon] parallel iterators are order preserving on [collect], so they
      are embedded as the sequential list functions. *)

From Stdlib Require Import Floats.SpecFloat.
From stdpp Require Import gmap strings list fin_maps sorting.

(** ** Data model *)

Abbreviation NodeT := nat (only parsing).
Abbreviation EdgeT := nat (only parsing).
Abbreviation NodeTypeT := nat (only parsing).
Abbreviation EdgeTypeT := nat (only parsing).
Abbreviation WeightT := spec_float (only parsing).

(** The four length comparisons made by [validate]. *)
Inductive Field : Type :=
  | NodeMapping
  | NodeTypes
  | Weights
  | EdgeTypes.

(** One constructor per [return Err(..)] of [validate]; the arguments are the
    values the source interpolates into the message, in the source's order. *)
Inductive Error : Type :=
  | LengthMismatch (field : Field) (left right : nat)
  | DanglingNodeReference (node : NodeT)
  | ZeroWeight (weight : WeightT)
  | NegativeWeight (weight : WeightT)
  | NaNWeight
  | InfiniteWeight.

(** Outcome of a call: a value, an error value, or a panic. *)
Inductive Result (A : Type) : Type :=
  | Ok (a : A)
  | Err (e : Error)
  | Panic.
Arguments Ok {A} a.
Arguments Err {A} e.
Arguments Panic {A}.

Module ResultMonad.

#[export] Instance Result_ret : MRet Result := λ A a, Ok a.

#[export] Instance Result_bind : MBind Result := λ A B k r,
  match r with
  | Ok a => k a
  | Err e => Err e
  | Panic => Panic
  end.

#[export] Instance Result_fmap : FMap Result := λ A B f r,
  match r with
  | Ok a => Ok (f a)
  | Err e => Err e
  | Panic => Panic
  end.

End ResultMonad.
Import ResultMonad.

(** [if c { return Err(e) }] *)
Definition fail_if (c : bool) (e : Error) : Result unit :=
  if c then Err e else Ok ().

(** [for x in l { body(x) }] where the body may return early with an error. *)
Fixpoint for_each {A} (body : A → Result unit) (l : list A) : Result unit :=
  match l with
  | [] => Ok ()
  | x :: l' => body x ;; for_each body l'
  end.

(** [if let Some(x) = o { body(x) }] *)
Definition if_let_Some {A} (o : option A) (body : A → Result unit) : Result unit :=
  match o with
  | Some x => body x
  | None => Ok ()
  end.

(** [v[x]]: panics when [x] is out of bounds. *)
Definition index {A} (v : list A) (x : nat) : Result A :=
  match v !! x with
  | Some a => Ok a
  | None => Panic
  end.

(** [it.map(f).collect()] for an [f] that may panic. *)
Fixpoint try_map {A B} (f : A → Result B) (l : list A) : Result (list B) :=
  match l with
  | [] => Ok []
  | x :: l' => y ← f x; ys ← try_map f l'; Ok (y :: ys)
  end.

(** ** Weights *)

(** The literal [0.0]. *)
Definition zero : WeightT := S754_zero false.

Definition is_nan (w : WeightT) : bool :=
  match w with S754_nan => true | _ => false end.

Definition is_infinite (w : WeightT) : bool :=
  match w with S754_infinity _ => true | _ => false end.

(** Body of the loop over the weights. *)
Definition check_weight (weight : WeightT) : Result unit :=
  fail_if (SFeqb weight zero) (ZeroWeight weight);;
  fail_if (SFltb weight zero) (NegativeWeight weight);;
  fail_if (is_nan weight) NaNWeight;;
  fail_if (is_infinite weight) InfiniteWeight.

(** ** The validator *)

Definition validate
    (sources destinations : list NodeT)
    (nodes_mapping : gmap string NodeT)
    (nodes_reverse_mapping : list string)
    (node_types : option (list NodeTypeT))
    (edge_types : option (list EdgeTypeT))
    (weights : option (list WeightT)) : Result unit :=
  fail_if (bool_decide (size nodes_mapping ≠ length nodes_reverse_mapping))
    (LengthMismatch NodeMapping (size nodes_mapping) (length nodes_reverse_mapping));;
  if_let_Some node_types (λ nt,
    fail_if (bool_decide (length nt ≠ length nodes_reverse_mapping))
      (LengthMismatch NodeTypes (length nt) (length nodes_reverse_mapping)));;
  if_let_Some node_types (λ nt,
    for_each (λ node,
      fail_if (bool_decide (length nt ≤ node)) (DanglingNodeReference node))
      (sources ++ destinations));;
  if_let_Some weights (λ w,
    fail_if (bool_decide (length w ≠ length sources))
      (LengthMismatch Weights (length w) (length sources));;
    for_each check_weight w);;
  if_let_Some edge_types (λ et,
    fail_if (bool_decide (length et ≠ length sources))
      (LengthMismatch EdgeTypes (length et) (length sources))).

(** ** The sort of the parallel-slice library

    [par_sort_unstable_by_key] belongs to [rayon]; its contract is that the
    slice is rearranged (a permutation) into ascending order of the key, the
    order of elements with equal keys being unspecified. The builder is
    verified against every implementation of this contract. *)
Class ParSortUnstable : Type := {
  par_sort_unstable_by_key :
    (nat * NodeT → nat) → list (nat * NodeT) → list (nat * NodeT);
  par_sort_permutation key l :
    par_sort_unstable_by_key key l ≡ₚ l;
  par_sort_sorted key l :
    Sorted (λ a b, key a ≤ key b) (par_sort_unstable_by_key key l);
}.

(** ** The graph *)

Record Graph : Type := {
  nodes_mapping : gmap string NodeT;
  nodes_reverse_mapping : list string;
  unique_edges : gmap (NodeT * NodeT) EdgeT;
  node_types : option (list NodeTypeT);
  node_types_mapping : option (gmap string NodeTypeT);
  node_types_reverse_mapping : option (list string);
  edge_types_mapping : option (gmap string EdgeTypeT);
  edge_types_reverse_mapping : option (list string);
  outbounds : list EdgeT;
  sources : list NodeT;
  destinations : list NodeT;
  weights : option (list WeightT);
  edge_types : option (list EdgeTypeT);
}.

(** [HashMap::from_iter]: the entries are inserted one after the other, a
    later entry replacing an earlier one with the same key. *)
Definition HashMap_from_iter `{Countable K} {V} (entries : list (K * V)) : gmap K V :=
  foldl (λ m kv, <[kv.1 := kv.2]> m) ∅ entries.

(** [it.enumerate()] *)
Definition enumerate {A} (l : list A) : list (nat * A) :=
  imap (λ i a, (i, a)) l.

(** [o.map(|v| .. )] for a closure that may panic. *)
Definition option_try_map {A B} (f : A → Result B) (o : option A) : Result (option B) :=
  match o with
  | Some a => Some <$> f a
  | None => Ok None
  end.

(** Modelled from the spec: [Graph::compute_outbounds] is called by
    [new_directed] but its body is not part of the sources at hand. The
    specification gives the offset table as the list of length [nodeCount]
    whose entry [i] is the number of sorted edges with source [≤ i]. *)
Definition compute_outbounds (nodes_number : nat) (sources : list NodeT) : list EdgeT :=
  (λ i, length (filter (λ src, src ≤ i) sources)) <$> seq 0 nodes_number.

Section Builders.
Context `{ParSortUnstable}.

Definition new_directed
    (sources destinations : list NodeT)
    (nodes_mapping : gmap string NodeT)
    (nodes_reverse_mapping : list string)
    (node_types : option (list NodeTypeT))
    (node_types_mapping : option (gmap string NodeTypeT))
    (node_types_reverse_mapping : option (list string))
    (edge_types : option (list EdgeTypeT))
    (edge_types_mapping : option (gmap string EdgeTypeT))
    (edge_types_reverse_mapping : option (list string))
    (weights : option (list WeightT))
    (validate_input_data : option bool) : Result Graph :=
  (if default true validate_input_data
   then validate sources destinations nodes_mapping nodes_reverse_mapping
          node_types edge_types weights
   else Ok ());;
  let nodes_number := length nodes_reverse_mapping in
  let unique_edges : gmap (NodeT * NodeT) EdgeT :=
    HashMap_from_iter
      ((λ '(i, (src, dst)), ((src, dst), i)) <$> enumerate (zip sources destinations)) in
  let pairs := enumerate sources in
  let pairs := par_sort_unstable_by_key snd pairs in
  let indices := fst <$> pairs in
  sorted_sources ← try_map (index sources) indices;
  sorted_destinations ← try_map (index destinations) indices;
  sorted_weights ← option_try_map (λ w, try_map (index w) indices) weights;
  sorted_edge_types ← option_try_map (λ et, try_map (index et) indices) edge_types;
  let outbounds := compute_outbounds nodes_number sorted_sources in
  Ok {|
    nodes_mapping := nodes_mapping;
    nodes_reverse_mapping := nodes_reverse_mapping;
    unique_edges := unique_edges;
    node_types := node_types;
    node_types_mapping := node_types_mapping;
    node_types_reverse_mapping := node_types_reverse_mapping;
    edge_types_mapping := edge_types_mapping;
    edge_types_reverse_mapping := edge_types_reverse_mapping;
    outbounds := outbounds;
    sources := sorted_sources;
    destinations := sorted_destinations;
    weights := sorted_weights;
    edge_types := sorted_edge_types;
  |}.

(** [v.iter().zip(mask).filter(|&(_, &mask)| !mask).map(|(value, _)| *value).collect()] *)
Definition not_masked {A} (v : list A) (loops_mask : list bool) : list A :=
  fst <$> filter (λ p, p.2 = false) (zip v loops_mask).

Definition new_undirected
    (sources destinations : list NodeT)
    (nodes_mapping : gmap string NodeT)
    (nodes_reverse_mapping : list string)
    (node_types : option (list NodeTypeT))
    (node_types_mapping : option (gmap string NodeTypeT))
    (node_types_reverse_mapping : option (list string))
    (edge_types : option (list EdgeTypeT))
    (edge_types_mapping : option (gmap string EdgeTypeT))
    (edge_types_reverse_mapping : option (list string))
    (weights : option (list WeightT))
    (validate_input_data : option bool) : Result Graph :=
  (if default true validate_input_data
   then validate sources destinations nodes_mapping nodes_reverse_mapping
          node_types edge_types weights
   else Ok ());;
  let loops_mask : list bool :=
    (λ '(a, b), bool_decide (a = b)) <$> zip sources destinations in
  let full_sources := sources ++ not_masked destinations loops_mask in
  let full_destinations := destinations ++ not_masked sources loops_mask in
  let full_edge_types := (λ e, e ++ not_masked e loops_mask) <$> edge_types in
  let full_weights := (λ w, w ++ not_masked w loops_mask) <$> weights in
  new_directed
    full_sources
    full_destinations
    nodes_mapping
    nodes_reverse_mapping
    node_types
    node_types_mapping
    node_types_reverse_mapping
    full_edge_types
    edge_types_mapping
    edge_types_reverse_mapping
    full_weights
    (Some false).

End Builders.

(** ** Two implementations of the sort contract

    Both are merge sorts; on elements with equal keys the first keeps the
    order of the input and the second reverses it. *)

Section SortInstances.

Definition key_le (key : nat * NodeT → nat) : relation (nat * NodeT) :=
  λ a b, key a ≤ key b.

#[global] Instance key_le_dec key : RelDecision (key_le key).
Proof. intros a b. unfold key_le. apply _. Defined.

#[global] Instance key_le_total key : Total (key_le key).
Proof. intros a b. unfold key_le. lia. Qed.

Definition keeping_sort (key : nat * NodeT → nat) (l : list (nat * NodeT)) :=
  merge_sort (key_le key) l.

Definition reversing_sort (key : nat * NodeT → nat) (l : list (nat * NodeT)) :=
  merge_sort (key_le key) (reverse l).

End SortInstances.

Program Definition keeping_par_sort : ParSortUnstable :=
  {| par_sort_unstable_by_key := keeping_sort |}.
Next Obligation. intros. apply merge_sort_Permutation. Qed.
Next Obligation.
  intros. apply (Sorted_merge_sort (key_le key)).
Qed.

Program Definition reversing_par_sort : ParSortUnstable :=
  {| par_sort_unstable_by_key := reversing_sort |}.
Next Obligation.
  intros. unfold reversing_sort. rewrite merge_sort_Permutation.
  apply reverse_Permutation.
Qed.
Next Obligation.
  intros. apply (Sorted_merge_sort (key_le key)).
Qed.

(** ** Index lists and rearranged arrays *)

(** [v'] is [v] rearranged by the index list [π]: [v'[i] = v[π[i]]] for every
    position [i] of [π], and [v'] has the length of [π]. *)
Definition permuted_by {A} (π : list nat) (v v' : list A) : Prop :=
  Forall2 (λ p a, v !! p = Some a) π v'.

(** The index list [indices] of [new_directed]. *)
Definition sort_indices `{ParSortUnstable} (srcs : list NodeT) : list nat :=
  (par_sort_unstable_by_key snd (enumerate srcs)).*1.

(** ** Derived views of the builder's data *)

(** The dedup index of the input arrays, as [new_directed] builds it. *)
Definition dedup_index (srcs dsts : list NodeT) : gmap (NodeT * NodeT) EdgeT :=
  HashMap_from_iter
    ((λ '(i, (src, dst)), ((src, dst), i)) <$> enumerate (zip srcs dsts)).

(** [loops_mask] of [new_undirected]. *)
Definition loops_mask (srcs dsts : list NodeT) : list bool :=
  (λ '(a, b), bool_decide (a = b)) <$> zip srcs dsts.

(** Number of edges of a source array whose source is at most [i]. *)
Definition edges_up_to (i : NodeT) (srcs : list NodeT) : nat :=
  length (filter (λ src, src ≤ i) srcs).

(** Start of the outgoing range of node [i]: [i == 0 ? 0 : offset[i-1]]. *)
Definition range_start (g : Graph) (i : NodeT) : EdgeT :=
  match i with
  | 0 => 0
  | S j => default 0 (outbounds g !! j)
  end.

(** A row of the co-indexed edge arrays: source, destination and, when the
    optional arrays are present, weight and edge type. *)
Abbreviation Row := (NodeT * NodeT * option WeightT * option EdgeTypeT)%type.

(** An optional per-edge array as a column of [n] optional entries. *)
Definition column {A} (o : option (list A)) (n : nat) : list (option A) :=
  match o with
  | Some l => Some <$> l
  | None => replicate n None
  end.

(** The rows of co-indexed edge arrays, one per entry of [srcs]. *)
Definition edge_rows (srcs dsts : list NodeT)
    (ws : option (list WeightT)) (ets : option (list EdgeTypeT)) : list Row :=
  zip (zip (zip srcs dsts) (column ws (length srcs))) (column ets (length srcs)).

(** The edges of a graph, with their multiplicities. *)
Definition graph_rows (g : Graph) : list Row :=
  edge_rows (sources g) (destinations g) (weights g) (edge_types g).

(** The edge [(d, s)] carrying the weight and type of [(s, d)]. *)
Definition mirror (r : Row) : Row :=
  let '(s, d, w, t) := r in (d, s, w, t).

Definition is_self_loop (r : Row) : Prop := r.1.1.1 = r.1.1.2.

#[global] Instance is_self_loop_dec r : Decision (is_self_loop r).
Proof. unfold is_self_loop. apply _. Defined.

(** [p] is the last position of the pair [k] in [rows]. *)
Definition last_occurrence (rows : list (NodeT * NodeT)) (k : NodeT * NodeT)
    (p : nat) : Prop :=
  rows !! p = Some k ∧ ∀ j, p < j → rows !! j ≠ Some k.

(** ** The validator, as the specification words it

    The checks are listed in their fixed order; each check yields the error
    it raises, if any, and the outcome is the first error of the list. *)

Fixpoint first_failure (checks : list (option Error)) : Result unit :=
  match checks with
  | [] => Ok ()
  | Some e :: _ => Err e
  | None :: checks' => first_failure checks'
  end.

(** The weight rules in their precedence order: zero, negative, NaN,
    infinite. *)
Definition weight_rules : list ((WeightT → bool) * (WeightT → Error)) :=
  [ (λ w, SFeqb w zero, ZeroWeight);
    (λ w, SFltb w zero, NegativeWeight);
    (is_nan, λ _, NaNWeight);
    (is_infinite, λ _, InfiniteWeight) ].

(** The error of the first rule a weight breaks. *)
Definition weight_violation (w : WeightT) : option Error :=
  (λ rule, rule.2 w) <$> head (filter (λ rule, rule.1 w = true) weight_rules).

Definition spec_check_node_mapping (nm : gmap string NodeT) (nrm : list string)
    : option Error :=
  if decide (size nm = length nrm) then None
  else Some (LengthMismatch NodeMapping (size nm) (length nrm)).

Definition spec_check_node_types (nrm : list string) (nt : option (list NodeTypeT))
    : option Error :=
  nt ≫= λ nt,
    if decide (length nt = length nrm) then None
    else Some (LengthMismatch NodeTypes (length nt) (length nrm)).

Definition spec_check_existence (srcs dsts : list NodeT)
    (nt : option (list NodeTypeT)) : option Error :=
  nt ≫= λ nt,
    DanglingNodeReference <$>
      head (filter (λ node, ¬ node < length nt) (srcs ++ dsts)).

Definition spec_check_weights (srcs : list NodeT) (ws : option (list WeightT))
    : option Error :=
  ws ≫= λ w,
    if decide (length w = length srcs) then head (omap weight_violation w)
    else Some (LengthMismatch Weights (length w) (length srcs)).

Definition spec_check_edge_types (srcs : list NodeT)
    (et : option (list EdgeTypeT)) : option Error :=
  et ≫= λ et,
    if decide (length et = length srcs) then None
    else Some (LengthMismatch EdgeTypes (length et) (length srcs)).

Definition validate_spec
    (srcs dsts : list NodeT) (nm : gmap string NodeT) (nrm : list string)
    (nt : option (list NodeTypeT)) (et : option (list EdgeTypeT))
    (ws : option (list WeightT)) : Result unit :=
  first_failure
    [ spec_check_node_mapping nm nrm;
      spec_check_node_types nrm nt;
      spec_check_existence srcs dsts nt;
      spec_check_weights srcs ws;
      spec_check_edge_types srcs et ].

(** The outcome of a single check. *)
Definition result_of_check (c : option Error) : Result unit :=
  match c with
  | Some e => Err e
  | None => Ok ()
  end.

(** ** Concrete values used in the examples *)

(** The doubles [1.0], [2.0], [3.0], [-1.0], [-0.0], [-∞] and [+∞]: sign,
    53-bit mantissa and exponent of the binary64 encoding. *)
Definition f64_1 : WeightT := S754_finite false 4503599627370496 (-52).
Definition f64_2 : WeightT := S754_finite false 4503599627370496 (-51).
Definition f64_3 : WeightT := S754_finite false 6755399441055744 (-51).
Definition f64_neg_1 : WeightT := S754_finite true 4503599627370496 (-52).
Definition f64_neg_zero : WeightT := S754_zero true.
Definition f64_neg_infinity : WeightT := S754_infinity true.
Definition f64_infinity : WeightT := S754_infinity false.

(** Node mappings of two and of three nodes. *)
Definition nodes_AB : gmap string NodeT := {[ "A" := 0; "B" := 1 ]}.
Definition nodes_ABC : gmap string NodeT := {[ "A" := 0; "B" := 1; "C" := 2 ]}.

(** ** Predicates used to state further properties *)

(** A double that is finite and strictly positive. *)
Definition is_positive_finite (w : WeightT) : bool :=
  match w with
  | S754_finite false _ _ => true
  | _ => false
  end.

(** The validation gate of the builders lets the input through: validation
    is disabled, or the validator returned [Ok]. *)
Definition gate_passed (v : option bool) (validated : Result unit) : Prop :=
  default true v = true → validated = Ok ().

(** One of the arrays the builder indexes by the positions of the sources is
    shorter than the sources. *)
Definition short_array (srcs dsts : list NodeT)
    (ws : option (list WeightT)) (et : option (list EdgeTypeT)) : Prop :=
  length dsts < length srcs ∨
  (∃ w, ws = Some w ∧ length w < length srcs) ∨
  (∃ e, et = Some e ∧ length e < length srcs).

(** What an error of the validator says about its input: the interpolated
    values are the lengths that differ, a node id or a weight of the input
    that breaks the rule the error names. *)
Definition error_justified
    (srcs dsts : list NodeT) (nm : gmap string NodeT) (nrm : list string)
    (nt : option (list NodeTypeT)) (et : option (list EdgeTypeT))
    (ws : option (list WeightT)) (err : Error) : Prop :=
  match err with
  | LengthMismatch NodeMapping a b =>
      a = size nm ∧ b = length nrm ∧ a ≠ b
  | LengthMismatch NodeTypes a b =>
      ∃ t, nt = Some t ∧ a = length t ∧ b = length nrm ∧ a ≠ b
  | LengthMismatch Weights a b =>
      ∃ w, ws = Some w ∧ a = length w ∧ b = length srcs ∧ a ≠ b
  | LengthMismatch EdgeTypes a b =>
      ∃ e, et = Some e ∧ a = length e ∧ b = length srcs ∧ a ≠ b
  | DanglingNodeReference node =>
      ∃ t, nt = Some t ∧ node ∈ srcs ++ dsts ∧ length t ≤ node
  | ZeroWeight x =>
      ∃ w s, ws = Some w ∧ x ∈ w ∧ x = S754_zero s
  | NegativeWeight x =>
      ∃ w, ws = Some w ∧ x ∈ w ∧
        (x = S754_infinity true ∨ ∃ m e, x = S754_finite true m e)
  | NaNWeight =>
      ∃ w, ws = Some w ∧ S754_nan ∈ w
  | InfiniteWeight =>
      ∃ w, ws = Some w ∧ S754_infinity false ∈ w
  end.

(** * Properties *)

(** ** Facts about the outcome monad *)

Lemma bind_Ok {A B} (r : Result A) (k : A → Result B) b :
  r ≫= k = Ok b ↔ ∃ a, r = Ok a ∧ k a = Ok b.
Proof.
  destruct r as [a| |]; simpl.
  - split; [intros ?; by exists a | by intros (? & [= <-] & ?)].
  - split; [done | by intros (? & ? & _)].
  - split; [done | by intros (? & ? & _)].
Qed.

Lemma bind_Err {A B} (r : Result A) (k : A → Result B) e :
  r ≫= k = Err e ↔ r = Err e ∨ ∃ a, r = Ok a ∧ k a = Err e.
Proof.
  destruct r as [a| |]; simpl.
  - split; [intros ?; right; by exists a | by intros [|(? & [= <-] & ?)]].
  - split; [intros [= ->]; by left | by intros [[= ->]|(? & ? & _)]].
  - split; [done | by intros [|(? & ? & _)]].
Qed.

Lemma bind_Panic {A B} (r : Result A) (k : A → Result B) :
  r ≫= k = Panic ↔ r = Panic ∨ ∃ a, r = Ok a ∧ k a = Panic.
Proof.
  destruct r as [a| |]; simpl.
  - split; [intros ?; right; by exists a | by intros [|(? & [= <-] & ?)]].
  - split; [done | by intros [|(? & ? & _)]].
  - split; [intros _; by left | done].
Qed.

Lemma fmap_Ok {A B} (f : A → B) (r : Result A) b :
  f <$> r = Ok b ↔ ∃ a, r = Ok a ∧ b = f a.
Proof.
  destruct r as [a| |]; simpl.
  - split; [intros [= <-]; by exists a | by intros (? & [= <-] & ->)].
  - split; [done | by intros (? & ? & _)].
  - split; [done | by intros (? & ? & _)].
Qed.

Lemma fail_if_not_Panic c e : fail_if c e ≠ Panic.
Proof. by destruct c. Qed.

Lemma for_each_not_Panic {A} (body : A → Result unit) l :
  (∀ x, body x ≠ Panic) → for_each body l ≠ Panic.
Proof.
  intros Hbody. induction l as [|x l IH]; simpl; [done|].
  specialize (Hbody x). destruct (body x) as [[]| |]; simpl; done.
Qed.

Lemma check_weight_not_Panic w : check_weight w ≠ Panic.
Proof.
  unfold check_weight.
  destruct (SFeqb w zero), (SFltb w zero), (is_nan w), (is_infinite w); done.
Qed.

Lemma validate_not_Panic srcs dsts nm nrm nt et ws :
  validate srcs dsts nm nrm nt et ws ≠ Panic.
Proof.
  unfold validate. intros Hp.
  repeat (apply bind_Panic in Hp as [Hp|(_ & _ & Hp)]);
    try (by eapply fail_if_not_Panic).
  - destruct nt; simpl in Hp; [by eapply fail_if_not_Panic|done].
  - destruct nt; simpl in Hp; [|done].
    revert Hp. apply for_each_not_Panic. intros. apply fail_if_not_Panic.
  - destruct ws; simpl in Hp; [|done].
    apply bind_Panic in Hp as [Hp|(_ & _ & Hp)]; [by eapply fail_if_not_Panic|].
    revert Hp. apply for_each_not_Panic, check_weight_not_Panic.
  - destruct et; simpl in Hp; [by eapply fail_if_not_Panic|done].
Qed.

(** ** Facts about indexing *)

Lemma index_Ok {A} (v : list A) x a : index v x = Ok a ↔ v !! x = Some a.
Proof. unfold index. destruct (v !! x); split; congruence. Qed.

Lemma index_not_Err {A} (v : list A) x e : index v x ≠ Err e.
Proof. unfold index. by destruct (v !! x). Qed.

Lemma try_map_index_Ok {A} (v : list A) idx l :
  try_map (index v) idx = Ok l ↔ Forall2 (λ x a, v !! x = Some a) idx l.
Proof.
  revert l. induction idx as [|x idx IH]; intros l; simpl.
  - split; [intros [= <-]; constructor | by inversion 1].
  - split.
    + intros (a & Ha & Hr)%bind_Ok. apply bind_Ok in Hr as (l' & Hl' & [= <-]).
      constructor; [by apply index_Ok | by apply IH].
    + inversion 1 as [|? a ? l' Ha Hl']; subst.
      apply index_Ok in Ha. rewrite Ha. simpl.
      apply IH in Hl'. by rewrite Hl'.
Qed.

Lemma try_map_index_not_Err {A} (v : list A) idx e :
  try_map (index v) idx ≠ Err e.
Proof.
  induction idx as [|x idx IH]; simpl; [done|].
  intros [Hx|(a & _ & Hr)]%bind_Err; [by eapply index_not_Err|].
  apply bind_Err in Hr as [Hr|(? & _ & Hr)]; done.
Qed.

(** Indexing never panics when every index is in bounds. *)
Lemma try_map_index_in_bounds {A} (v : list A) idx :
  Forall (λ x, x < length v) idx →
  ∃ l, try_map (index v) idx = Ok l.
Proof.
  induction 1 as [|x idx Hx _ [l IH]]; [by exists []|].
  apply lookup_lt_is_Some in Hx as [a Ha].
  exists (a :: l). apply try_map_index_Ok.
  constructor; [done | by apply try_map_index_Ok].
Qed.

Lemma option_try_map_index_not_Err {A} (o : option (list A)) idx e :
  option_try_map (λ w, try_map (index w) idx) o ≠ Err e.
Proof.
  destruct o as [w|]; simpl; [|done].
  pose proof (try_map_index_not_Err w idx e).
  destruct (try_map (index w) idx); simpl; congruence.
Qed.

(** ** Facts about [enumerate] and the sort *)

Lemma elem_of_enumerate {A} (l : list A) i a :
  (i, a) ∈ enumerate l ↔ l !! i = Some a.
Proof.
  unfold enumerate. rewrite elem_of_lookup_imap. split.
  - intros (j & b & [= -> ->] & Hb). done.
  - intros Ha. by exists i, a.
Qed.

Lemma fst_enumerate {A} (l : list A) : (enumerate l).*1 = seq 0 (length l).
Proof.
  unfold enumerate. rewrite fmap_imap.
  rewrite (imap_ext _ (λ n _, id n)) by done.
  by rewrite imap_seq_0, list_fmap_id.
Qed.

Lemma snd_enumerate {A} (l : list A) : (enumerate l).*2 = l.
Proof.
  unfold enumerate. rewrite fmap_imap.
  rewrite (imap_ext _ (const id)) by done.
  by rewrite imap_const, list_fmap_id.
Qed.

Lemma permuted_by_lookup {A} (π : list nat) (v v' : list A) i p :
  permuted_by π v v' → π !! i = Some p →
  is_Some (v' !! i) ∧ v' !! i = v !! p.
Proof.
  intros Hperm Hp.
  destruct (Forall2_lookup_l _ _ _ _ _ Hperm Hp) as (a & Ha & Hv).
  rewrite Ha, Hv. eauto.
Qed.

Lemma permuted_by_length {A} (π : list nat) (v v' : list A) :
  permuted_by π v v' → length v' = length π.
Proof. intros Hperm. symmetry. by eapply Forall2_length. Qed.

(** Rearranging two arrays by the same index list keeps their rows aligned. *)
Lemma permuted_by_zip {A B} (π : list nat) (v v' : list A) (u u' : list B) :
  permuted_by π v v' → permuted_by π u u' →
  permuted_by π (zip v u) (zip v' u').
Proof.
  unfold permuted_by. intros Hv. revert u'.
  induction Hv as [|p a π v' Hp _ IH]; intros u'; inversion 1; subst; simpl.
  - constructor.
  - constructor; [|by apply IH].
    rewrite lookup_zip_with. rewrite Hp. simpl.
    by match goal with H : u !! p = Some _ |- _ => rewrite H end.
Qed.

Lemma permuted_by_omap {A} (π : list nat) (v v' : list A) :
  permuted_by π v v' → v' = omap (λ p, v !! p) π.
Proof.
  induction 1 as [|p a π' l' Hp _ IH]; simpl; [done|].
  rewrite Hp. by rewrite IH.
Qed.

Lemma omap_lookup_seq {A} (v : list A) :
  omap (λ p, v !! p) (seq 0 (length v)) = v.
Proof.
  induction v as [|a v IH] using rev_ind; [done|].
  rewrite length_app. simpl. rewrite Nat.add_1_r, seq_S, omap_app. simpl.
  rewrite list_lookup_middle by done. simpl. f_equal.
  rewrite <- IH at 2. apply list_omap_ext.
  apply Forall2_same_length_lookup_2; [done|].
  intros i x y Hx Hy. assert (x = y) as <- by congruence.
  apply lookup_seq in Hx as [-> Hi]. simpl.
  by rewrite lookup_app_l.
Qed.

(** Rearranging by a permutation of all the positions gives a permutation
    of the array. *)
Lemma permuted_by_Permutation {A} (π : list nat) (v v' : list A) :
  π ≡ₚ seq 0 (length v) → permuted_by π v v' → v' ≡ₚ v.
Proof.
  intros Hπ ->%permuted_by_omap.
  rewrite Hπ. by rewrite omap_lookup_seq.
Qed.

(** ** What the directed builder computes *)

Section DirectedFacts.
Context `{ParSortUnstable}.

Lemma sort_indices_Permutation srcs :
  sort_indices srcs ≡ₚ seq 0 (length srcs).
Proof.
  unfold sort_indices. rewrite par_sort_permutation. by rewrite fst_enumerate.
Qed.

Lemma sort_indices_length srcs : length (sort_indices srcs) = length srcs.
Proof. by rewrite sort_indices_Permutation, length_seq. Qed.

Lemma sort_indices_in_bounds srcs :
  Forall (λ p, p < length srcs) (sort_indices srcs).
Proof.
  rewrite sort_indices_Permutation. apply Forall_forall.
  intros p Hp%elem_of_seq. lia.
Qed.

(** Rearranging the sources by the index list gives the keys of the sorted
    pairs. *)
Lemma sort_indices_sources srcs :
  permuted_by (sort_indices srcs) srcs
    (par_sort_unstable_by_key snd (enumerate srcs)).*2.
Proof.
  unfold permuted_by, sort_indices.
  assert (Hin : Forall (λ ia, srcs !! ia.1 = Some ia.2)
                  (par_sort_unstable_by_key snd (enumerate srcs))).
  { rewrite par_sort_permutation. apply Forall_forall.
    intros [i a] Hia. by apply elem_of_enumerate. }
  induction Hin as [|[i a] ps Hia _ IH]; simpl; by constructor.
Qed.

Lemma sorted_keys_Sorted srcs :
  Sorted (≤) (par_sort_unstable_by_key snd (enumerate srcs)).*2.
Proof.
  eapply Sorted_fmap; [|apply par_sort_sorted]. done.
Qed.

Lemma permuted_by_functional {A} π (v v1 v2 : list A) :
  permuted_by π v v1 → permuted_by π v v2 → v1 = v2.
Proof. by intros ->%permuted_by_omap ->%permuted_by_omap. Qed.

(** Everything a successful call of [new_directed] determines. *)
Lemma new_directed_Ok_inv srcs dsts nm nrm nt ntm ntrm et etm etrm ws v g :
  new_directed srcs dsts nm nrm nt ntm ntrm et etm etrm ws v = Ok g →
  (default true v = true → validate srcs dsts nm nrm nt et ws = Ok ()) ∧
  permuted_by (sort_indices srcs) srcs (sources g) ∧
  permuted_by (sort_indices srcs) dsts (destinations g) ∧
  option_Forall2 (permuted_by (sort_indices srcs)) ws (weights g) ∧
  option_Forall2 (permuted_by (sort_indices srcs)) et (edge_types g) ∧
  outbounds g = compute_outbounds (length nrm) (sources g) ∧
  unique_edges g = dedup_index srcs dsts ∧
  nodes_mapping g = nm ∧ nodes_reverse_mapping g = nrm ∧ node_types g = nt ∧
  node_types_mapping g = ntm ∧ node_types_reverse_mapping g = ntrm ∧
  edge_types_mapping g = etm ∧ edge_types_reverse_mapping g = etrm.
Proof.
  unfold new_directed. fold (sort_indices srcs). fold (dedup_index srcs dsts).
  intros ([] & Hval & Hg)%bind_Ok.
  apply bind_Ok in Hg as (ss & Hss%try_map_index_Ok & Hg).
  apply bind_Ok in Hg as (sd & Hsd%try_map_index_Ok & Hg).
  apply bind_Ok in Hg as (sw & Hsw & Hg).
  apply bind_Ok in Hg as (se & Hse & Hg).
  injection Hg as <-. simpl.
  split_and!; try done.
  - intros Hv. by rewrite Hv in Hval.
  - destruct ws as [w|]; simpl in Hsw.
    + apply fmap_Ok in Hsw as (w' & ?%try_map_index_Ok & ->). by constructor.
    + injection Hsw as <-. constructor.
  - destruct et as [e|]; simpl in Hse.
    + apply fmap_Ok in Hse as (e' & ?%try_map_index_Ok & ->). by constructor.
    + injection Hse as <-. constructor.
Qed.

(** [new_directed] returns an error exactly when validation is enabled and
    the validator returns that error. *)
Lemma new_directed_Err srcs dsts nm nrm nt ntm ntrm et etm etrm ws v e :
  new_directed srcs dsts nm nrm nt ntm ntrm et etm etrm ws v = Err e ↔
  default true v = true ∧ validate srcs dsts nm nrm nt et ws = Err e.
Proof.
  unfold new_directed. fold (sort_indices srcs). split.
  - intros [Hval|([] & Hval & Hg)]%bind_Err.
    + destruct (default true v); [done|discriminate].
    + exfalso.
      apply bind_Err in Hg as [Hg|(? & _ & Hg)]; [by eapply try_map_index_not_Err|].
      apply bind_Err in Hg as [Hg|(? & _ & Hg)]; [by eapply try_map_index_not_Err|].
      apply bind_Err in Hg as [Hg|(? & _ & Hg)];
        [by eapply option_try_map_index_not_Err|].
      apply bind_Err in Hg as [Hg|(? & _ & Hg)];
        [by eapply option_try_map_index_not_Err|].
      discriminate.
  - intros [-> ->]. done.
Qed.

(** [new_directed] returns a graph when the gate lets the input through and
    no index is out of bounds. *)
Lemma new_directed_Ok srcs dsts nm nrm nt ntm ntrm et etm etrm ws v :
  (default true v = true → validate srcs dsts nm nrm nt et ws = Ok ()) →
  length srcs ≤ length dsts →
  (∀ w, ws = Some w → length srcs ≤ length w) →
  (∀ e, et = Some e → length srcs ≤ length e) →
  ∃ g, new_directed srcs dsts nm nrm nt ntm ntrm et etm etrm ws v = Ok g.
Proof.
  intros Hval Hd Hw He.
  unfold new_directed. fold (sort_indices srcs).
  pose proof (sort_indices_in_bounds srcs) as Hπ.
  assert (Hgate : (if default true v
                   then validate srcs dsts nm nrm nt et ws else Ok ()) = Ok ()).
  { destruct (default true v); [by apply Hval | done]. }
  rewrite Hgate. simpl.
  destruct (try_map_index_in_bounds srcs _ Hπ) as [ss ->]. simpl.
  destruct (try_map_index_in_bounds dsts (sort_indices srcs)) as [sd ->].
  { eapply Forall_impl; [exact Hπ|]. simpl. lia. }
  simpl.
  assert (∃ sw, option_try_map (λ w, try_map (index w) (sort_indices srcs)) ws
                = Ok sw) as [sw ->].
  { destruct ws as [w|]; simpl; [|by eexists].
    destruct (try_map_index_in_bounds w (sort_indices srcs)) as [sw ->].
    - eapply Forall_impl; [exact Hπ|]. simpl. intros. specialize (Hw w eq_refl). lia.
    - by eexists. }
  simpl.
  assert (∃ se, option_try_map (λ w, try_map (index w) (sort_indices srcs)) et
                = Ok se) as [se ->].
  { destruct et as [e|]; simpl; [|by eexists].
    destruct (try_map_index_in_bounds e (sort_indices srcs)) as [se ->].
    - eapply Forall_impl; [exact Hπ|]. simpl. intros. specialize (He e eq_refl). lia.
    - by eexists. }
  simpl. by eexists.
Qed.

(** The sorted sources are the sources in ascending order. *)
Lemma new_directed_sources_sorted srcs dsts nm nrm nt ntm ntrm et etm etrm ws v g :
  new_directed srcs dsts nm nrm nt ntm ntrm et etm etrm ws v = Ok g →
  Sorted (≤) (sources g) ∧ sources g ≡ₚ srcs.
Proof.
  intros (_ & Hs & _)%new_directed_Ok_inv.
  rewrite (permuted_by_functional _ _ _ _ Hs (sort_indices_sources srcs)).
  split; [apply sorted_keys_Sorted|].
  rewrite par_sort_permutation. by rewrite snd_enumerate.
Qed.

End DirectedFacts.

(** ** The offset table *)

Section OffsetTable.

Lemma compute_outbounds_length n srcs : length (compute_outbounds n srcs) = n.
Proof. unfold compute_outbounds. by rewrite length_fmap, length_seq. Qed.

Lemma compute_outbounds_lookup n srcs i :
  i < n → compute_outbounds n srcs !! i = Some (edges_up_to i srcs).
Proof.
  intros Hi. unfold compute_outbounds. rewrite list_lookup_fmap.
  by rewrite lookup_seq_lt.
Qed.

Lemma edges_up_to_cons i a srcs :
  edges_up_to i (a :: srcs) =
  (if decide (a ≤ i) then 1 else 0) + edges_up_to i srcs.
Proof.
  unfold edges_up_to. rewrite filter_cons. by destruct (decide (a ≤ i)).
Qed.

Lemma edges_up_to_le_length i srcs : edges_up_to i srcs ≤ length srcs.
Proof. apply length_filter. Qed.

Lemma edges_up_to_all i srcs :
  Forall (λ src, src ≤ i) srcs → edges_up_to i srcs = length srcs.
Proof.
  induction 1 as [|a srcs Ha _ IH]; [done|].
  rewrite edges_up_to_cons, IH. rewrite decide_True by done. done.
Qed.

Lemma edges_up_to_none i srcs :
  Forall (λ src, i < src) srcs → edges_up_to i srcs = 0.
Proof.
  induction 1 as [|a srcs Ha _ IH]; [done|].
  rewrite edges_up_to_cons, IH. rewrite decide_False by lia. done.
Qed.

(** In an ascending array the edges with source [≤ i] are exactly the first
    [edges_up_to i] positions. *)
Lemma sorted_position_below i srcs pos x :
  Sorted (≤) srcs → srcs !! pos = Some x →
  pos < edges_up_to i srcs ↔ x ≤ i.
Proof.
  intros Hs%Sorted_StronglySorted; [|apply _]. revert pos.
  induction Hs as [|a srcs _ IH Ha]; intros pos Hx; [done|].
  rewrite edges_up_to_cons. destruct (decide (a ≤ i)) as [Hai|Hai].
  - destruct pos as [|pos]; simpl in Hx.
    + injection Hx as <-. lia.
    + rewrite <- (IH pos Hx). lia.
  - rewrite edges_up_to_none.
    2:{ eapply Forall_impl; [exact Ha|]. simpl. lia. }
    assert (a ≤ x).
    { destruct pos as [|pos]; simpl in Hx; [injection Hx as <-; lia|].
      rewrite Forall_forall in Ha. apply Ha. by eapply list_elem_of_lookup_2. }
    lia.
Qed.

(** Every position of the range of node [i] holds an edge leaving [i]. *)
Lemma sorted_range_sources i srcs pos :
  Sorted (≤) srcs →
  match i with 0 => 0 | S j => edges_up_to j srcs end ≤ pos →
  pos < edges_up_to i srcs →
  srcs !! pos = Some i.
Proof.
  intros Hs Hlo Hhi.
  pose proof (edges_up_to_le_length i srcs) as Hlen.
  destruct (lookup_lt_is_Some_2 srcs pos) as [x Hx]; [lia|].
  rewrite Hx. f_equal.
  apply (sorted_position_below i) in Hx as Hxi; [|done].
  apply Hxi in Hhi. destruct i as [|j]; [lia|].
  apply (sorted_position_below j) in Hx as Hxj; [|done]. lia.
Qed.

End OffsetTable.

(** ** Edges as rows *)

Section Rows.

Lemma permuted_by_covers {A} (π : list nat) n (v v' : list A) :
  π ≡ₚ seq 0 n → permuted_by π v v' → n ≤ length v.
Proof.
  intros Hπ Hperm. destruct n as [|n]; [lia|].
  assert (n ∈ π) as Hn by (rewrite Hπ; apply elem_of_seq; lia).
  apply list_elem_of_lookup in Hn as [i Hi].
  destruct (Forall2_lookup_l _ _ _ _ _ Hperm Hi) as (a & _ & Ha).
  apply lookup_lt_Some in Ha. lia.
Qed.

Lemma permuted_by_fmap {A B} (f : A → B) π (v v' : list A) :
  permuted_by π v v' → permuted_by π (f <$> v) (f <$> v').
Proof.
  induction 1 as [|p a π' l' Hp _ IH]; simpl; constructor; [|done].
  by rewrite list_lookup_fmap, Hp.
Qed.

Lemma permuted_by_replicate {A} (x : A) π n :
  Forall (λ p, p < n) π →
  permuted_by π (replicate n x) (replicate (length π) x).
Proof.
  induction 1 as [|p π' Hp _ IH]; simpl; constructor; [|done].
  by apply lookup_replicate_2.
Qed.

Lemma permuted_by_column {A} π n (o o' : option (list A)) :
  Forall (λ p, p < n) π →
  option_Forall2 (permuted_by π) o o' →
  permuted_by π (column o n) (column o' (length π)).
Proof.
  intros Hπ [w w' Hw|]; simpl.
  - by apply permuted_by_fmap.
  - by apply permuted_by_replicate.
Qed.

Lemma length_column_ge {A} (o : option (list A)) n :
  (∀ l, o = Some l → n ≤ length l) → n ≤ length (column o n).
Proof.
  destruct o as [l|]; simpl; intros Hl.
  - rewrite length_fmap. by apply Hl.
  - by rewrite length_replicate.
Qed.

Lemma length_edge_rows srcs dsts ws ets :
  length srcs ≤ length dsts →
  (∀ w, ws = Some w → length srcs ≤ length w) →
  (∀ e, ets = Some e → length srcs ≤ length e) →
  length (edge_rows srcs dsts ws ets) = length srcs.
Proof.
  intros Hd Hw%length_column_ge He%length_column_ge.
  unfold edge_rows. rewrite !length_zip_with. lia.
Qed.

Lemma option_permuted_by_covers {A} π n (o o' : option (list A)) :
  π ≡ₚ seq 0 n → option_Forall2 (permuted_by π) o o' →
  ∀ l, o = Some l → n ≤ length l.
Proof.
  intros Hπ [w w' Hw|]; intros l [= <-]. by eapply permuted_by_covers.
Qed.

End Rows.

Section DirectedRows.
Context `{ParSortUnstable}.

(** A successful call leaves no input array shorter than the sources. *)
Lemma new_directed_Ok_lengths srcs dsts nm nrm nt ntm ntrm et etm etrm ws v g :
  new_directed srcs dsts nm nrm nt ntm ntrm et etm etrm ws v = Ok g →
  length srcs ≤ length dsts ∧
  (∀ w, ws = Some w → length srcs ≤ length w) ∧
  (∀ e, et = Some e → length srcs ≤ length e).
Proof.
  intros (_ & _ & Hd & Hw & He & _)%new_directed_Ok_inv.
  pose proof (sort_indices_Permutation srcs) as Hπ.
  split_and!.
  - by eapply permuted_by_covers.
  - by eapply option_permuted_by_covers.
  - by eapply option_permuted_by_covers.
Qed.

(** The rows of the graph are the rows of the input, rearranged. *)
Lemma new_directed_rows srcs dsts nm nrm nt ntm ntrm et etm etrm ws v g :
  new_directed srcs dsts nm nrm nt ntm ntrm et etm etrm ws v = Ok g →
  graph_rows g ≡ₚ edge_rows srcs dsts ws et.
Proof.
  intros Hg.
  destruct (new_directed_Ok_lengths _ _ _ _ _ _ _ _ _ _ _ _ _ Hg) as (Hld & Hlw & Hle).
  apply new_directed_Ok_inv in Hg as (_ & Hs & Hd & Hw & He & _).
  pose proof (sort_indices_Permutation srcs) as Hπ.
  pose proof (sort_indices_in_bounds srcs) as Hb.
  apply (permuted_by_Permutation (sort_indices srcs)).
  - by rewrite length_edge_rows.
  - unfold graph_rows, edge_rows.
    rewrite (permuted_by_length _ _ _ Hs).
    repeat apply permuted_by_zip; try done; by apply permuted_by_column.
Qed.

Lemma new_directed_edges srcs dsts nm nrm nt ntm ntrm et etm etrm ws v g :
  new_directed srcs dsts nm nrm nt ntm ntrm et etm etrm ws v = Ok g →
  zip (sources g) (destinations g) ≡ₚ zip srcs dsts.
Proof.
  intros Hg.
  destruct (new_directed_Ok_lengths _ _ _ _ _ _ _ _ _ _ _ _ _ Hg) as (Hld & _).
  apply new_directed_Ok_inv in Hg as (_ & Hs & Hd & _).
  apply (permuted_by_Permutation (sort_indices srcs)).
  - rewrite length_zip_with, Nat.min_l by done. apply sort_indices_Permutation.
  - by apply permuted_by_zip.
Qed.

End DirectedRows.

(** ** The dedup index *)

Section DedupIndex.

Lemma dedup_entries (rows : list (NodeT * NodeT)) :
  (λ '(i, (src, dst)), ((src, dst), i)) <$> enumerate rows =
  imap (λ i k, (k, i)) rows.
Proof.
  unfold enumerate. rewrite fmap_imap. apply imap_ext.
  by intros i [src dst] _.
Qed.

Lemma HashMap_from_iter_snoc `{Countable K} {V} (entries : list (K * V)) k v :
  HashMap_from_iter (entries ++ [(k, v)]) = <[k := v]> (HashMap_from_iter entries).
Proof. unfold HashMap_from_iter. by rewrite foldl_snoc. Qed.

(** A pair is mapped to the position of its last occurrence. *)
Lemma dedup_index_lookup srcs dsts k p :
  dedup_index srcs dsts !! k = Some p ↔ last_occurrence (zip srcs dsts) k p.
Proof.
  unfold dedup_index, last_occurrence. rewrite dedup_entries.
  generalize (zip srcs dsts) as rows. clear srcs dsts.
  induction rows as [|r rows IH] using rev_ind.
  - simpl. unfold HashMap_from_iter. simpl. rewrite lookup_empty.
    split; [done | by intros [? _]].
  - rewrite imap_app. simpl. rewrite Nat.add_0_r, HashMap_from_iter_snoc.
    destruct (decide (r = k)) as [->|Hne].
    + rewrite lookup_insert_eq. split.
      * intros [= <-]. split; [by apply list_lookup_middle|].
        intros j Hj. rewrite lookup_ge_None_2; [done|].
        rewrite length_app. simpl. lia.
      * intros [Hp Hlast]. f_equal.
        apply lookup_lt_Some in Hp as Hlt. rewrite length_app in Hlt. simpl in Hlt.
        destruct (decide (p = length rows)) as [|Hp']; [done|].
        exfalso. apply (Hlast (length rows)); [lia|].
        by apply list_lookup_middle.
    + rewrite lookup_insert_ne by done. rewrite IH. split.
      * intros [Hp Hlast]. split; [by apply lookup_app_l_Some|].
        intros j Hj Hjk. apply lookup_app_Some in Hjk as [Hjk|[_ Hjk]].
        -- by apply (Hlast j).
        -- apply list_lookup_singleton_Some in Hjk as [_ ?]. done.
      * intros [Hp Hlast].
        apply lookup_app_Some in Hp as [Hp|[_ Hp]].
        -- split; [done|]. intros j Hj Hjk. apply (Hlast j); [done|].
           by apply lookup_app_l_Some.
        -- apply list_lookup_singleton_Some in Hp as [_ ?]. done.
Qed.

End DedupIndex.

(** ** The symmetrization *)

Section Symmetrization.

Lemma not_masked_fmap {A B} (f : A → B) (v : list A) mask :
  not_masked (f <$> v) mask = f <$> not_masked v mask.
Proof.
  unfold not_masked. revert mask.
  induction v as [|a v IH]; intros [|m mask]; simpl; try done.
  rewrite !filter_cons. simpl. destruct (decide (m = false)); simpl; by rewrite IH.
Qed.

Lemma not_masked_zip {A B} (a : list A) (b : list B) mask :
  zip (not_masked a mask) (not_masked b mask) = not_masked (zip a b) mask.
Proof.
  unfold not_masked. revert b mask.
  induction a as [|x a IH]; intros [|y b] [|m mask]; simpl; try done.
  - rewrite filter_cons. simpl.
    destruct (decide (m = false)); simpl; [done|]. apply zip_with_nil_r.
  - rewrite !filter_cons. simpl. destruct (decide (m = false)); simpl; by rewrite IH.
Qed.

Lemma not_masked_self {A} (m : A → bool) (v : list A) :
  not_masked v (m <$> v) = filter (λ r, m r = false) v.
Proof.
  unfold not_masked. induction v as [|a v IH]; [done|].
  cbn [fmap list_fmap zip_with]. rewrite !filter_cons. cbn [snd].
  destruct (decide (m a = false)); [rewrite fmap_cons; f_equal|]; apply IH.
Qed.

End Symmetrization.

Section SymmetrizedRows.

Lemma not_masked_length {A} (v : list A) mask :
  length mask ≤ length v →
  length (not_masked v mask) = length (filter (λ b, b = false) mask).
Proof.
  unfold not_masked. rewrite length_fmap. revert mask.
  induction v as [|a v IH]; intros [|m mask]; simpl; intros Hlen; try done; try lia.
  rewrite !filter_cons. simpl.
  destruct (decide (m = false)); simpl; rewrite IH; (done || lia).
Qed.

Lemma length_loops_mask srcs dsts :
  length (loops_mask srcs dsts) = length srcs `min` length dsts.
Proof. unfold loops_mask. by rewrite length_fmap, length_zip_with. Qed.

Lemma column_extended {A} (o : option (list A)) (dsts : list NodeT) mask :
  column ((λ w, w ++ not_masked w mask) <$> o)
    (length dsts + length (not_masked dsts mask)) =
  column o (length dsts) ++ not_masked (column o (length dsts)) mask.
Proof.
  destruct o as [w|]; simpl.
  - by rewrite fmap_app, not_masked_fmap.
  - rewrite replicate_add. f_equal.
    rewrite <- (const_fmap (λ _, None) dsts None) by done.
    rewrite not_masked_fmap. symmetry. by apply const_fmap.
Qed.

Lemma zip_mirror (a b : list NodeT) (c : list (option WeightT))
    (d : list (option EdgeTypeT)) :
  zip (zip (zip b a) c) d = mirror <$> zip (zip (zip a b) c) d.
Proof.
  revert b c d.
  induction a as [|x a IH]; intros [|y b] [|z c] [|t d]; simpl; try done.
  by rewrite IH.
Qed.

Lemma loops_mask_rows srcs dsts ws et :
  length dsts = length srcs →
  (∀ w, ws = Some w → length w = length srcs) →
  (∀ e, et = Some e → length e = length srcs) →
  loops_mask srcs dsts =
  (λ r : Row, bool_decide (r.1.1.1 = r.1.1.2)) <$> edge_rows srcs dsts ws et.
Proof.
  intros Hd Hw He. unfold loops_mask, edge_rows.
  assert (Hcw : length (column ws (length srcs)) = length srcs).
  { destruct ws as [w|]; simpl;
      [rewrite length_fmap; by apply Hw | by rewrite length_replicate]. }
  assert (Hce : length (column et (length srcs)) = length srcs).
  { destruct et as [e|]; simpl;
      [rewrite length_fmap; by apply He | by rewrite length_replicate]. }
  set (X := zip srcs dsts).
  assert (HX : length X = length srcs).
  { unfold X. rewrite length_zip_with. lia. }
  rewrite <- (fst_zip X (column ws (length srcs))) at 1 by lia.
  rewrite <- (fst_zip (zip X _) (column et (length srcs))) at 1.
  2:{ rewrite length_zip_with. lia. }
  rewrite <- !list_fmap_compose. apply list_fmap_ext.
  by intros _ [[[a b] w] t] _.
Qed.

(** The arrays handed to [new_directed] hold the input rows followed by the
    mirror of each input row that is not a self-loop. *)
Lemma symmetrized_rows srcs dsts ws et :
  length dsts = length srcs →
  (∀ w, ws = Some w → length w = length srcs) →
  (∀ e, et = Some e → length e = length srcs) →
  edge_rows
    (srcs ++ not_masked dsts (loops_mask srcs dsts))
    (dsts ++ not_masked srcs (loops_mask srcs dsts))
    ((λ w, w ++ not_masked w (loops_mask srcs dsts)) <$> ws)
    ((λ e, e ++ not_masked e (loops_mask srcs dsts)) <$> et) =
  edge_rows srcs dsts ws et ++
  (mirror <$> filter (λ r, ¬ is_self_loop r) (edge_rows srcs dsts ws et)).
Proof.
  intros Hd Hw He.
  rewrite (loops_mask_rows srcs dsts ws et) by done.
  set (R := edge_rows srcs dsts ws et).
  set (mask := _ <$> R).
  assert (Hcw : length (column ws (length srcs)) = length srcs).
  { destruct ws as [w|]; simpl;
      [rewrite length_fmap; by apply Hw | by rewrite length_replicate]. }
  assert (Hce : length (column et (length srcs)) = length srcs).
  { destruct et as [e|]; simpl;
      [rewrite length_fmap; by apply He | by rewrite length_replicate]. }
  unfold edge_rows at 1. rewrite length_app, <- Hd.
  rewrite !column_extended. rewrite Hd.
  rewrite !zip_with_app.
  2:{ rewrite !length_zip_with. lia. }
  2:{ rewrite !length_zip_with. lia. }
  2:{ lia. }
  fold (edge_rows srcs dsts ws et). fold R. f_equal.
  rewrite !not_masked_zip, zip_mirror. fold (edge_rows srcs dsts ws et). fold R.
  rewrite not_masked_fmap. f_equal.
  unfold mask. rewrite not_masked_self.
  apply list_filter_iff. intros r. unfold is_self_loop.
  by rewrite bool_decide_eq_false.
Qed.

End SymmetrizedRows.

Section UndirectedFacts.
Context `{ParSortUnstable}.

Lemma new_undirected_unfold srcs dsts nm nrm nt ntm ntrm et etm etrm ws v :
  new_undirected srcs dsts nm nrm nt ntm ntrm et etm etrm ws v =
  ((if default true v then validate srcs dsts nm nrm nt et ws else Ok ());;
   new_directed
     (srcs ++ not_masked dsts (loops_mask srcs dsts))
     (dsts ++ not_masked srcs (loops_mask srcs dsts))
     nm nrm nt ntm ntrm
     ((λ e, e ++ not_masked e (loops_mask srcs dsts)) <$> et) etm etrm
     ((λ w, w ++ not_masked w (loops_mask srcs dsts)) <$> ws)
     (Some false)).
Proof. reflexivity. Qed.

Lemma new_undirected_Err srcs dsts nm nrm nt ntm ntrm et etm etrm ws v e :
  new_undirected srcs dsts nm nrm nt ntm ntrm et etm etrm ws v = Err e ↔
  default true v = true ∧ validate srcs dsts nm nrm nt et ws = Err e.
Proof.
  rewrite new_undirected_unfold. split.
  - intros [Hval|([] & Hval & Hg)]%bind_Err.
    + destruct (default true v); [done|discriminate].
    + apply new_directed_Err in Hg as [[=] _].
  - intros [-> ->]. done.
Qed.

Lemma new_undirected_Ok srcs dsts nm nrm nt ntm ntrm et etm etrm ws v :
  (default true v = true → validate srcs dsts nm nrm nt et ws = Ok ()) →
  length srcs ≤ length dsts →
  (∀ w, ws = Some w → length srcs ≤ length w) →
  (∀ e, et = Some e → length srcs ≤ length e) →
  ∃ g, new_undirected srcs dsts nm nrm nt ntm ntrm et etm etrm ws v = Ok g.
Proof.
  intros Hval Hd Hw He. rewrite new_undirected_unfold.
  assert (Hgate : (if default true v
                   then validate srcs dsts nm nrm nt et ws else Ok ()) = Ok ()).
  { destruct (default true v); [by apply Hval | done]. }
  rewrite Hgate. simpl.
  pose proof (length_loops_mask srcs dsts) as Hm.
  apply new_directed_Ok; [done|..].
  - rewrite !length_app, !not_masked_length by lia. lia.
  - intros ? (w & -> & ->)%fmap_Some. specialize (Hw w eq_refl).
    rewrite !length_app, !not_masked_length by lia. lia.
  - intros ? (e & -> & ->)%fmap_Some. specialize (He e eq_refl).
    rewrite !length_app, !not_masked_length by lia. lia.
Qed.

Lemma new_undirected_Ok_inv srcs dsts nm nrm nt ntm ntrm et etm etrm ws v g :
  new_undirected srcs dsts nm nrm nt ntm ntrm et etm etrm ws v = Ok g →
  (default true v = true → validate srcs dsts nm nrm nt et ws = Ok ()) ∧
  new_directed
     (srcs ++ not_masked dsts (loops_mask srcs dsts))
     (dsts ++ not_masked srcs (loops_mask srcs dsts))
     nm nrm nt ntm ntrm
     ((λ e, e ++ not_masked e (loops_mask srcs dsts)) <$> et) etm etrm
     ((λ w, w ++ not_masked w (loops_mask srcs dsts)) <$> ws)
     (Some false) = Ok g.
Proof.
  rewrite new_undirected_unfold. intros ([] & Hval & Hg)%bind_Ok.
  split; [|done]. intros Hv. by rewrite Hv in Hval.
Qed.

(** The rows of the undirected graph. *)
Lemma new_undirected_rows srcs dsts nm nrm nt ntm ntrm et etm etrm ws v g :
  new_undirected srcs dsts nm nrm nt ntm ntrm et etm etrm ws v = Ok g →
  length dsts = length srcs →
  (∀ w, ws = Some w → length w = length srcs) →
  (∀ e, et = Some e → length e = length srcs) →
  graph_rows g ≡ₚ
    edge_rows srcs dsts ws et ++
    (mirror <$> filter (λ r, ¬ is_self_loop r) (edge_rows srcs dsts ws et)).
Proof.
  intros [_ Hg]%new_undirected_Ok_inv Hd Hw He.
  apply new_directed_rows in Hg. rewrite Hg.
  by rewrite symmetrized_rows.
Qed.

End UndirectedFacts.

(** ** The validator refines its specification *)

Section ValidatorRefinement.

Lemma first_failure_cons c checks :
  first_failure (c :: checks) = (result_of_check c ;; first_failure checks).
Proof. by destruct c. Qed.

Lemma check_weight_violation w :
  check_weight w = result_of_check (weight_violation w).
Proof.
  unfold check_weight, weight_violation, weight_rules.
  rewrite !filter_cons, filter_nil. simpl.
  destruct (SFeqb w zero); [done|].
  destruct (SFltb w zero); [done|].
  destruct (is_nan w); [done|].
  by destruct (is_infinite w).
Qed.

Lemma for_each_weights w :
  for_each check_weight w = result_of_check (head (omap weight_violation w)).
Proof.
  induction w as [|x w IH]; simpl; [done|].
  rewrite check_weight_violation. destruct (weight_violation x); simpl; done.
Qed.

Lemma for_each_existence n (nodes : list NodeT) :
  for_each (λ node, fail_if (bool_decide (n ≤ node)) (DanglingNodeReference node))
    nodes =
  result_of_check
    (DanglingNodeReference <$> head (filter (λ node, ¬ node < n) nodes)).
Proof.
  induction nodes as [|x nodes IH]; simpl; [done|].
  rewrite filter_cons. destruct (decide (¬ x < n)) as [Hx|Hx].
  - rewrite bool_decide_true by lia. done.
  - rewrite bool_decide_false by lia. done.
Qed.

End ValidatorRefinement.

Section ValidatorChecks.

Lemma bind_Ok_unit (r : Result unit) : (r ;; Ok ()) = r.
Proof. by destruct r as [[]| |]. Qed.

Lemma check_node_mapping_refines (nm : gmap string NodeT) (nrm : list string) :
  fail_if (bool_decide (size nm ≠ length nrm))
    (LengthMismatch NodeMapping (size nm) (length nrm)) =
  result_of_check (spec_check_node_mapping nm nrm).
Proof.
  unfold spec_check_node_mapping. destruct (decide (size nm = length nrm)).
  - by rewrite bool_decide_false by auto.
  - by rewrite bool_decide_true by auto.
Qed.

Lemma check_node_types_refines (nrm : list string) nt :
  if_let_Some nt (λ nt,
    fail_if (bool_decide (length nt ≠ length nrm))
      (LengthMismatch NodeTypes (length nt) (length nrm))) =
  result_of_check (spec_check_node_types nrm nt).
Proof.
  destruct nt as [nt|]; simpl; [|done].
  destruct (decide (length nt = length nrm)).
  - by rewrite bool_decide_false by auto.
  - by rewrite bool_decide_true by auto.
Qed.

Lemma check_existence_refines srcs dsts nt :
  if_let_Some nt (λ nt,
    for_each (λ node,
      fail_if (bool_decide (length nt ≤ node)) (DanglingNodeReference node))
      (srcs ++ dsts)) =
  result_of_check (spec_check_existence srcs dsts nt).
Proof.
  destruct nt as [nt|]; simpl; [|done]. apply for_each_existence.
Qed.

Lemma check_weights_refines (srcs : list NodeT) ws :
  if_let_Some ws (λ w,
    fail_if (bool_decide (length w ≠ length srcs))
      (LengthMismatch Weights (length w) (length srcs));;
    for_each check_weight w) =
  result_of_check (spec_check_weights srcs ws).
Proof.
  destruct ws as [w|]; simpl; [|done].
  destruct (decide (length w = length srcs)).
  - rewrite bool_decide_false by auto. simpl. apply for_each_weights.
  - by rewrite bool_decide_true by auto.
Qed.

Lemma check_edge_types_refines (srcs : list NodeT) et :
  if_let_Some et (λ et,
    fail_if (bool_decide (length et ≠ length srcs))
      (LengthMismatch EdgeTypes (length et) (length srcs))) =
  result_of_check (spec_check_edge_types srcs et).
Proof.
  destruct et as [et|]; simpl; [|done].
  destruct (decide (length et = length srcs)).
  - by rewrite bool_decide_false by auto.
  - by rewrite bool_decide_true by auto.
Qed.

Lemma validate_refines srcs dsts nm nrm nt et ws :
  validate srcs dsts nm nrm nt et ws = validate_spec srcs dsts nm nrm nt et ws.
Proof.
  unfold validate, validate_spec.
  rewrite !first_failure_cons. simpl first_failure. rewrite bind_Ok_unit.
  rewrite check_node_mapping_refines, check_node_types_refines,
    check_existence_refines, check_weights_refines, check_edge_types_refines.
  done.
Qed.

End ValidatorChecks.

(** Sanity checks of the weight pass on concrete doubles. *)

Example check_weight_positive : check_weight f64_1 = Ok ().
Proof. reflexivity. Qed.

Example check_weight_negative_zero :
  check_weight f64_neg_zero = Err (ZeroWeight f64_neg_zero).
Proof. reflexivity. Qed.

Example check_weight_negative_infinity :
  check_weight f64_neg_infinity = Err (NegativeWeight f64_neg_infinity).
Proof. reflexivity. Qed.

Example check_weight_nan : check_weight S754_nan = Err NaNWeight.
Proof. reflexivity. Qed.

Example check_weight_infinity : check_weight f64_infinity = Err InfiniteWeight.
Proof. reflexivity. Qed.

(** The first offending weight by position decides, not the precedence of
    the rules across weights. *)
Example validate_first_offending_weight :
  validate [0; 1; 2] [1; 2; 0] nodes_ABC ["A"; "B"; "C"] None None
    (Some [f64_1; f64_neg_1; zero]) = Err (NegativeWeight f64_neg_1).
Proof. reflexivity. Qed.

(** ** Inputs whose sources are pairwise distinct

    When no two edges share a source the contract of the sort fixes its
    result, so every implementation builds the same graph. *)

Section DistinctSources.
Context `{ParSortUnstable}.

Lemma NoDup_fmap_eq {A B} (f : A → B) (l : list A) x y :
  NoDup (f <$> l) → x ∈ l → y ∈ l → f x = f y → x = y.
Proof.
  intros Hnd [i Hi]%list_elem_of_lookup [j Hj]%list_elem_of_lookup Hxy.
  assert (i = j) as ->; [|congruence].
  apply (NoDup_lookup _ _ _ (f x) Hnd); rewrite list_lookup_fmap.
  - by rewrite Hi.
  - rewrite Hj. simpl. by rewrite Hxy.
Qed.

Lemma sort_distinct_keys key l :
  NoDup (key <$> l) →
  par_sort_unstable_by_key key l = keeping_sort key l.
Proof.
  intros Hnd.
  assert (Transitive (key_le key)) by (intros a b c; unfold key_le; lia).
  apply (Sorted_unique_strong (key_le key)).
  - intros x1 x2 Hx1 Hx2 H12 H21. unfold key_le in *.
    rewrite par_sort_permutation in Hx1.
    unfold keeping_sort in Hx2. rewrite merge_sort_Permutation in Hx2.
    apply (NoDup_fmap_eq key l); [done..|lia].
  - apply par_sort_sorted.
  - apply (Sorted_merge_sort (key_le key)).
  - rewrite par_sort_permutation. unfold keeping_sort.
    by rewrite merge_sort_Permutation.
Qed.

Lemma new_directed_distinct_sources
    srcs dsts nm nrm nt ntm ntrm et etm etrm ws v :
  NoDup srcs →
  new_directed srcs dsts nm nrm nt ntm ntrm et etm etrm ws v =
  new_directed (H := keeping_par_sort)
    srcs dsts nm nrm nt ntm ntrm et etm etrm ws v.
Proof.
  intros Hnd. unfold new_directed.
  rewrite sort_distinct_keys; [done|]. by rewrite snd_enumerate.
Qed.

(** A destination array shorter than the sources makes the builder panic
    once the gate is passed. *)
Lemma new_directed_short_destinations
    srcs dsts nm nrm nt ntm ntrm et etm etrm ws v :
  (default true v = true → validate srcs dsts nm nrm nt et ws = Ok ()) →
  length dsts < length srcs →
  new_directed srcs dsts nm nrm nt ntm ntrm et etm etrm ws v = Panic.
Proof.
  intros Hval Hlen.
  destruct (new_directed srcs dsts nm nrm nt ntm ntrm et etm etrm ws v)
    as [g|e|] eqn:Hg; [| |done].
  - apply new_directed_Ok_lengths in Hg as [? _]. lia.
  - apply new_directed_Err in Hg as [Hv Hg]. rewrite Hval in Hg; done.
Qed.

End DistinctSources.

(** ** The end-to-end example *)

Lemma new_directed_example `{ParSortUnstable} :
  ∃ g,
    new_directed [2; 0; 1] [0; 1; 2] nodes_ABC ["A"; "B"; "C"]
      None None None None None None (Some [f64_1; f64_2; f64_3]) (Some true)
    = Ok g ∧
    sources g = [0; 1; 2] ∧
    destinations g = [1; 2; 0] ∧
    weights g = Some [f64_2; f64_3; f64_1] ∧
    outbounds g = [1; 2; 3] ∧
    unique_edges g = dedup_index [2; 0; 1] [0; 1; 2].
Proof.
  rewrite new_directed_distinct_sources by compute_done.
  eexists. split; [vm_compute; reflexivity|]. done.
Qed.

Section FirstFailure.

Lemma first_failure_Err checks e :
  first_failure checks = Err e ↔
  ∃ passed rest, checks = passed ++ Some e :: rest ∧ Forall (λ c, c = None) passed.
Proof.
  induction checks as [|[e'|] checks IH]; simpl.
  - split; [done|]. intros (passed & rest & Heq & _). by destruct passed.
  - split.
    + intros [= ->]. by exists [], checks.
    + intros (passed & rest & Heq & Hpassed).
      destruct Hpassed as [|c passed -> _]; simpl in Heq; congruence.
  - rewrite IH. split.
    + intros (passed & rest & -> & Hpassed).
      exists (None :: passed), rest. split; [done|]. by constructor.
    + intros (passed & rest & Heq & Hpassed).
      destruct Hpassed as [|c passed -> Hpassed]; simpl in Heq; [done|].
      injection Heq as ->. by exists passed, rest.
Qed.

Lemma first_violation_Some (w : list WeightT) e :
  head (omap weight_violation w) = Some e ↔
  ∃ passed x rest,
    w = passed ++ x :: rest ∧
    Forall (λ y, weight_violation y = None) passed ∧
    weight_violation x = Some e.
Proof.
  induction w as [|y w IH]; simpl.
  - split; [done|]. intros (passed & x & rest & Heq & _). by destruct passed.
  - destruct (weight_violation y) as [ey|] eqn:Hy; simpl.
    + split.
      * intros [= ->]. by exists [], y, w.
      * intros (passed & x & rest & Heq & Hpassed & Hx).
        destruct Hpassed as [|c passed Hc _]; simpl in Heq;
          injection Heq as -> ->; congruence.
    + rewrite IH. split.
      * intros (passed & x & rest & -> & Hpassed & Hx).
        exists (y :: passed), x, rest. split_and!; [done| |done]. by constructor.
      * intros (passed & x & rest & Heq & Hpassed & Hx).
        destruct Hpassed as [|c passed Hc Hpassed]; simpl in Heq;
          injection Heq as -> ->; [congruence|].
        by exists passed, x, rest.
Qed.

End FirstFailure.

Section Existence.

Lemma head_filter_exists {A} (P : A → Prop) `{∀ x, Decision (P x)} (l : list A) :
  (∃ x, x ∈ l ∧ P x) → ∃ y, head (filter P l) = Some y ∧ y ∈ l ∧ P y.
Proof.
  intros (x & Hx & HPx).
  assert (x ∈ filter P l) as Hin by (by apply list_elem_of_filter).
  destruct (filter P l) as [|y l'] eqn:Hf; [by apply not_elem_of_nil in Hin|].
  exists y. split; [done|].
  assert (y ∈ filter P l) as Hy by (rewrite Hf; apply list_elem_of_here).
  apply list_elem_of_filter in Hy as [? ?]. done.
Qed.

End Existence.

(** * The claims *)

(** C1. For every input accepted by [new_directed] whose source ids are all
    less than [nodeCount = len(nodeIdToName)] (the bound on the destination
    ids is not needed), the offset table of the returned graph has length
    [nodeCount]; [offset[i]] is the number of sorted edges with source [≤ i]
    for every [i]; [offset[nodeCount-1]] is the edge count; and for every
    node [i] every edge position in [[offset[i-1], offset[i])] (with
    [offset[-1] = 0]) holds an edge whose sorted source is [i]. *)
Theorem offset_table_of_new_directed `{ParSortUnstable}
    srcs dsts nm nrm nt ntm ntrm et etm etrm ws v g :
  new_directed srcs dsts nm nrm nt ntm ntrm et etm etrm ws v = Ok g →
  Forall (λ src, src < length nrm) srcs →
  length (outbounds g) = length nrm ∧
  (∀ i, i < length nrm →
     outbounds g !! i = Some (edges_up_to i (sources g))) ∧
  length (sources g) = length srcs ∧
  (0 < length nrm →
     outbounds g !! (length nrm - 1) = Some (length (sources g))) ∧
  (∀ i o pos,
     outbounds g !! i = Some o → range_start g i ≤ pos → pos < o →
     sources g !! pos = Some i).
Proof.
  intros Hg Hbound.
  destruct (new_directed_sources_sorted _ _ _ _ _ _ _ _ _ _ _ _ _ Hg)
    as [Hsorted Hperm].
  apply new_directed_Ok_inv in Hg as (_ & _ & _ & _ & _ & Hout & _).
  rewrite Hout. split_and!.
  - apply compute_outbounds_length.
  - intros i Hi. by apply compute_outbounds_lookup.
  - by rewrite Hperm.
  - intros Hn. rewrite compute_outbounds_lookup by lia. f_equal.
    apply edges_up_to_all. rewrite Hperm.
    eapply Forall_impl; [exact Hbound|]. simpl. lia.
  - intros i o pos Ho Hlo Hhi.
    assert (i < length nrm) as Hi.
    { apply lookup_lt_Some in Ho. by rewrite compute_outbounds_length in Ho. }
    rewrite compute_outbounds_lookup in Ho by done. injection Ho as <-.
    apply sorted_range_sources; [done| |done].
    destruct i as [|j]; [lia|].
    unfold range_start in Hlo. rewrite Hout in Hlo.
    rewrite compute_outbounds_lookup in Hlo by lia. done.
Qed.

Lemma offset_table_of_new_directed_witness :
  ∃ g,
    new_directed (H := keeping_par_sort) [2; 0; 1; 0] [0; 1; 2; 2] nodes_ABC
      ["A"; "B"; "C"] None None None None None None None None = Ok g ∧
    length (outbounds g) = 3 ∧
    (∀ i, i < 3 → outbounds g !! i = Some (edges_up_to i (sources g))) ∧
    length (sources g) = 4 ∧
    (0 < 3 → outbounds g !! 2 = Some (length (sources g))) ∧
    (∀ i o pos,
       outbounds g !! i = Some o → range_start g i ≤ pos → pos < o →
       sources g !! pos = Some i).
Proof.
  eexists. split; [vm_compute; reflexivity|].
  apply (offset_table_of_new_directed (H := keeping_par_sort)
           [2; 0; 1; 0] [0; 1; 2; 2] nodes_ABC ["A"; "B"; "C"]
           None None None None None None None None).
  - vm_compute. reflexivity.
  - repeat constructor.
Defined.

(** C2. For every input accepted by [new_directed] there is a single
    permutation [π] of the edge positions such that the sorted sources, the
    sorted destinations and, when present, the sorted weights and the sorted
    edge types are the input arrays rearranged by [π]
    ([sorted[i] = input[π[i]]] for every [i]); the sorted sources are
    ascending, so that sorting them again changes nothing. For the
    end-to-end example, construction succeeds with sorted sources
    [[0,1,2]] and offsets [[1,2,3]]. *)
Theorem new_directed_single_permutation `{ParSortUnstable} :
  (∀ srcs dsts nm nrm nt ntm ntrm et etm etrm ws v g,
     new_directed srcs dsts nm nrm nt ntm ntrm et etm etrm ws v = Ok g →
     (∃ π : list nat,
        π ≡ₚ seq 0 (length srcs) ∧
        permuted_by π srcs (sources g) ∧
        permuted_by π dsts (destinations g) ∧
        option_Forall2 (permuted_by π) ws (weights g) ∧
        option_Forall2 (permuted_by π) et (edge_types g)) ∧
     Sorted (≤) (sources g) ∧
     (∀ l, l ≡ₚ sources g → Sorted (≤) l → l = sources g)) ∧
  (∃ g,
     new_directed [2; 0; 1] [0; 1; 2] nodes_ABC ["A"; "B"; "C"]
       None None None None None None (Some [f64_1; f64_2; f64_3]) (Some true)
     = Ok g ∧
     sources g = [0; 1; 2] ∧ outbounds g = [1; 2; 3]).
Proof.
  split.
  - intros srcs dsts nm nrm nt ntm ntrm et etm etrm ws v g Hg.
    destruct (new_directed_sources_sorted _ _ _ _ _ _ _ _ _ _ _ _ _ Hg)
      as [Hsorted _].
    apply new_directed_Ok_inv in Hg as (_ & Hs & Hd & Hw & He & _).
    split_and!; [|done|].
    + exists (sort_indices srcs). split_and!; try done.
      apply sort_indices_Permutation.
    + intros l Hl Hsl. by apply (Sorted_unique (≤)).
  - destruct new_directed_example as (g & Hg & Hs & _ & _ & Ho & _). eauto.
Qed.

Lemma new_directed_single_permutation_witness :
  ∃ g,
    new_directed (H := reversing_par_sort) [1; 0; 1; 0] [0; 1; 2; 2] nodes_ABC
      ["A"; "B"; "C"]
      None None None None None None (Some [f64_1; f64_2; f64_3; f64_1]) None
    = Ok g ∧
    (∃ π : list nat,
        π ≡ₚ seq 0 4 ∧
        permuted_by π [1; 0; 1; 0] (sources g) ∧
        permuted_by π [0; 1; 2; 2] (destinations g) ∧
        option_Forall2 (permuted_by π)
          (Some [f64_1; f64_2; f64_3; f64_1]) (weights g) ∧
        option_Forall2 (permuted_by π) None (edge_types g)) ∧
    Sorted (≤) (sources g) ∧
    (∀ l, l ≡ₚ sources g → Sorted (≤) l → l = sources g).
Proof.
  eexists. split; [vm_compute; reflexivity|].
  apply (proj1 (new_directed_single_permutation (H := reversing_par_sort))
           [1; 0; 1; 0] [0; 1; 2; 2] nodes_ABC ["A"; "B"; "C"]
           None None None None None None (Some [f64_1; f64_2; f64_3; f64_1]) None).
  vm_compute. reflexivity.
Defined.

(** C3, as stated, fails: the validator never compares the lengths of the
    sources and of the destinations, so the input [sources = [0]],
    [destinations = [1, 2]] is accepted (validation enabled by default) and
    the returned graph holds the edges [(0,1)] and [(1,2)] instead of
    [(0,1)] and its mirror [(1,0)]. *)
Lemma new_undirected_ragged_input :
  ∃ g,
    new_undirected (H := keeping_par_sort) [0] [1; 2] nodes_ABC ["A"; "B"; "C"]
      None None None None None None None None = Ok g ∧
    graph_rows g = [(0, 1, None, None); (1, 2, None, None)] ∧
    ¬ graph_rows g ≡ₚ
        edge_rows [0] [1; 2] None None ++
        (mirror <$> filter (λ r, ¬ is_self_loop r) (edge_rows [0] [1; 2] None None)).
Proof.
  eexists. split; [vm_compute; reflexivity|]. split; [reflexivity|].
  intros Hperm.
  assert (Hin : (1, 2, @None WeightT, @None EdgeTypeT) ∈
           edge_rows [0] [1; 2] None None ++
           (mirror <$> filter (λ r, ¬ is_self_loop r)
                         (edge_rows [0] [1; 2] None None))).
  { rewrite <- Hperm. vm_compute. apply list_elem_of_further, list_elem_of_here. }
  vm_compute in Hin.
  apply elem_of_cons in Hin as [[=]|Hin].
  apply elem_of_cons in Hin as [[=]|Hin].
  by apply not_elem_of_nil in Hin.
Qed.

(** C3, amended. For every input accepted by [new_undirected] whose
    destinations and, when present, weights and edge types have the length
    of the sources, the edge multiset of the returned graph is the input
    edge multiset plus exactly one mirrored edge [(d, s)] for each input
    edge [(s, d)] with [s ≠ d], each mirrored edge carrying the weight and
    the edge type of its original; self-loops are kept once and never
    mirrored. For the input edges [{(0,1),(1,2),(2,2)}] the resulting edge
    multiset is [{(0,1),(1,0),(1,2),(2,1),(2,2)}]. *)
Theorem new_undirected_edge_multiset `{ParSortUnstable} :
  (∀ srcs dsts nm nrm nt ntm ntrm et etm etrm ws v g,
     new_undirected srcs dsts nm nrm nt ntm ntrm et etm etrm ws v = Ok g →
     length dsts = length srcs →
     (∀ w, ws = Some w → length w = length srcs) →
     (∀ e, et = Some e → length e = length srcs) →
     graph_rows g ≡ₚ
       edge_rows srcs dsts ws et ++
       (mirror <$> filter (λ r, ¬ is_self_loop r) (edge_rows srcs dsts ws et))) ∧
  (∃ g,
     new_undirected [0; 1; 2] [1; 2; 2] nodes_ABC ["A"; "B"; "C"]
       None None None None None None None None = Ok g ∧
     zip (sources g) (destinations g) ≡ₚ
       [(0, 1); (1, 0); (1, 2); (2, 1); (2, 2)]).
Proof.
  split.
  - intros. by apply (new_undirected_rows _ _ nm nrm nt ntm ntrm _ etm etrm _ v).
  - destruct (new_undirected_Ok [0; 1; 2] [1; 2; 2] nodes_ABC ["A"; "B"; "C"]
                None None None None None None None None) as [g Hg];
      [done|done|done|done|].
    exists g. split; [done|].
    apply new_undirected_Ok_inv in Hg as [_ Hg].
    apply new_directed_edges in Hg. rewrite Hg.
    vm_compute. solve_Permutation.
Qed.

Lemma new_undirected_edge_multiset_witness :
  ∃ g,
    new_undirected (H := reversing_par_sort) [0; 1; 2; 0] [1; 2; 2; 1] nodes_ABC
      ["A"; "B"; "C"] None None None (Some [7; 8; 9; 7]) None None
      (Some [f64_1; f64_2; f64_3; f64_2]) None = Ok g ∧
    graph_rows g ≡ₚ
      [ (0, 1, Some f64_1, Some 7); (1, 2, Some f64_2, Some 8);
        (2, 2, Some f64_3, Some 9); (0, 1, Some f64_2, Some 7);
        (1, 0, Some f64_1, Some 7); (2, 1, Some f64_2, Some 8);
        (1, 0, Some f64_2, Some 7) ].
Proof.
  eexists. split; [vm_compute; reflexivity|].
  apply (proj1 (new_undirected_edge_multiset (H := reversing_par_sort))
           [0; 1; 2; 0] [1; 2; 2; 1] nodes_ABC ["A"; "B"; "C"]
           None None None (Some [7; 8; 9; 7]) None None
           (Some [f64_1; f64_2; f64_3; f64_2]) None).
  - vm_compute. reflexivity.
  - reflexivity.
  - intros w [= <-]. reflexivity.
  - intros e [= <-]. reflexivity.
Defined.

(** C4. [validate] performs its checks in the fixed order (1) node-mapping
    length equality, (2) node-types length, (3) node-id existence against
    [len(nodeTypes)], (4) weights length then per-weight domain checks,
    (5) edge-types length, and stops at the first failure; within the
    weights pass the error is that of the first offending weight by
    position, each weight being checked in the precedence order zero,
    negative, NaN, infinite. Stated as a refinement: [validate] computes the
    first failure of the ordered list of checks, where the first failure of
    a list is the error of the first check that fails and the error of the
    weights pass is the violation of the first weight that has one. *)
Theorem validate_fixed_order :
  (∀ srcs dsts nm nrm nt et ws,
     validate srcs dsts nm nrm nt et ws =
     first_failure
       [ spec_check_node_mapping nm nrm;
         spec_check_node_types nrm nt;
         spec_check_existence srcs dsts nt;
         spec_check_weights srcs ws;
         spec_check_edge_types srcs et ]) ∧
  (∀ checks e,
     first_failure checks = Err e ↔
     ∃ passed rest,
       checks = passed ++ Some e :: rest ∧ Forall (λ c, c = None) passed) ∧
  (∀ (w : list WeightT) e,
     head (omap weight_violation w) = Some e ↔
     ∃ passed x rest,
       w = passed ++ x :: rest ∧
       Forall (λ y, weight_violation y = None) passed ∧
       weight_violation x = Some e) ∧
  (∀ w,
     weight_violation w =
     if SFeqb w zero then Some (ZeroWeight w)
     else if SFltb w zero then Some (NegativeWeight w)
     else if is_nan w then Some NaNWeight
     else if is_infinite w then Some InfiniteWeight
     else None).
Proof.
  split_and!.
  - apply validate_refines.
  - apply first_failure_Err.
  - apply first_violation_Some.
  - intros w. unfold weight_violation, weight_rules.
    rewrite !filter_cons, filter_nil. simpl.
    destruct (SFeqb w zero); [done|].
    destruct (SFltb w zero); [done|].
    destruct (is_nan w); [done|].
    by destruct (is_infinite w).
Qed.

(** C5. In the dedup index built by [new_directed] a pair that occurs at
    several input positions is mapped to the position of its last
    occurrence in input order, and no edge is removed: the rows of the
    sorted arrays are the input rows, duplicates included. For the input
    edges [(0,1)] with weight [1.0] and [(0,1)] with weight [2.0] the index
    maps [(0,1)] to [1] and both edges are rows of the sorted arrays. *)
Theorem dedup_index_last_occurrence `{ParSortUnstable} :
  (∀ srcs dsts nm nrm nt ntm ntrm et etm etrm ws v g,
     new_directed srcs dsts nm nrm nt ntm ntrm et etm etrm ws v = Ok g →
     (∀ k p,
        unique_edges g !! k = Some p ↔ last_occurrence (zip srcs dsts) k p) ∧
     length (sources g) = length srcs ∧
     graph_rows g ≡ₚ edge_rows srcs dsts ws et) ∧
  (∃ g,
     new_directed [0; 0] [1; 1] nodes_AB ["A"; "B"]
       None None None None None None (Some [f64_1; f64_2]) None = Ok g ∧
     unique_edges g !! (0, 1) = Some 1 ∧
     graph_rows g ≡ₚ [(0, 1, Some f64_1, None); (0, 1, Some f64_2, None)]).
Proof.
  split.
  - intros srcs dsts nm nrm nt ntm ntrm et etm etrm ws v g Hg.
    pose proof (new_directed_rows _ _ _ _ _ _ _ _ _ _ _ _ _ Hg) as Hrows.
    apply new_directed_Ok_inv in Hg as (_ & Hs & _ & _ & _ & _ & Hu & _).
    split_and!; [|by rewrite (permuted_by_length _ _ _ Hs), sort_indices_length|done].
    intros k p. rewrite Hu. apply dedup_index_lookup.
  - destruct (new_directed_Ok [0; 0] [1; 1] nodes_AB ["A"; "B"]
                None None None None None None (Some [f64_1; f64_2]) None)
      as [g Hg].
    + intros _. reflexivity.
    + done.
    + intros w [= <-]. done.
    + done.
    + exists g. split; [done|].
      pose proof (new_directed_rows _ _ _ _ _ _ _ _ _ _ _ _ _ Hg) as Hrows.
      apply new_directed_Ok_inv in Hg as (_ & _ & _ & _ & _ & _ & Hu & _).
      split; [|done]. rewrite Hu. apply dedup_index_lookup.
      split; [done|]. intros j Hj. rewrite lookup_ge_None_2; [done|]. simpl. lia.
Qed.

Lemma dedup_index_last_occurrence_witness :
  ∃ g,
    new_directed (H := keeping_par_sort) [2; 0; 2; 0] [1; 2; 1; 2] nodes_ABC
      ["A"; "B"; "C"] None None None None None None None (Some false) = Ok g ∧
    (∀ k p,
       unique_edges g !! k = Some p ↔
       last_occurrence [(2, 1); (0, 2); (2, 1); (0, 2)] k p) ∧
    length (sources g) = 4 ∧
    graph_rows g ≡ₚ
      [ (2, 1, None, None); (0, 2, None, None);
        (2, 1, None, None); (0, 2, None, None) ].
Proof.
  eexists. split; [vm_compute; reflexivity|].
  apply (proj1 (dedup_index_last_occurrence (H := keeping_par_sort))
           [2; 0; 2; 0] [1; 2; 1; 2] nodes_ABC ["A"; "B"; "C"]
           None None None None None None None (Some false)).
  vm_compute. reflexivity.
Defined.

(** C6 does not hold of the code: the dedup index is filled from the
    enumeration of the input arrays before they are sorted, and its values
    are not remapped by the sort. On the end-to-end example the pair
    [(2,0)] is mapped to [0], while position [0] of the sorted arrays holds
    the edge [(0,1)]. *)
Theorem dedup_index_not_sorted_position `{ParSortUnstable} :
  ∃ g,
    new_directed [2; 0; 1] [0; 1; 2] nodes_ABC ["A"; "B"; "C"]
      None None None None None None (Some [f64_1; f64_2; f64_3]) (Some true)
    = Ok g ∧
    unique_edges g !! (2, 0) = Some 0 ∧
    sources g !! 0 = Some 0 ∧
    destinations g !! 0 = Some 1.
Proof.
  destruct new_directed_example as (g & Hg & Hs & Hd & _ & _ & Hu).
  exists g. rewrite Hs, Hd, Hu. split_and!; [done| |done|done].
  apply dedup_index_lookup. split; [done|].
  intros [|[|[|j]]] Hj; simpl; (done || lia).
Qed.

(** C7, as stated, fails: the existence check is the third check, so an
    input with a dangling node id is rejected with the error of an earlier
    check when one fails. Here the node types have the wrong length. *)
Lemma validate_dangling_reported_as_length_mismatch :
  (∃ node, node ∈ [7] ++ [0] ∧ length [0; 0] ≤ node) ∧
  validate [7] [0] {[ "A" := 0 ]} ["A"] (Some [0; 0]) None None =
    Err (LengthMismatch NodeTypes 2 1) ∧
  ¬ ∃ node,
      validate [7] [0] {[ "A" := 0 ]} ["A"] (Some [0; 0]) None None =
        Err (DanglingNodeReference node).
Proof.
  split_and!.
  - exists 7. split; [apply list_elem_of_here | simpl; lia].
  - reflexivity.
  - intros [node Hnode]. vm_compute in Hnode. discriminate.
Qed.

(** C7, amended. When the node types are present and the two length checks
    that come first pass (mapping lengths equal, [len(nodeTypes) =
    len(nodeIdToName)]), [validate] rejects with [DanglingNodeReference]
    every input in which some id of the sources or of the destinations is
    [≥ len(nodeTypes)]. When the node types are absent the existence check
    is skipped: [validate] returns [Ok] as soon as the other checks pass,
    whatever the ids in the sources and the destinations are. *)
Theorem validate_existence_check :
  (∀ srcs dsts nm nrm nt et ws,
     size nm = length nrm →
     length nt = length nrm →
     (∃ node, node ∈ srcs ++ dsts ∧ length nt ≤ node) →
     ∃ node,
       node ∈ srcs ++ dsts ∧ length nt ≤ node ∧
       validate srcs dsts nm nrm (Some nt) et ws =
         Err (DanglingNodeReference node)) ∧
  (∀ srcs dsts nm nrm et ws,
     spec_check_node_mapping nm nrm = None →
     spec_check_weights srcs ws = None →
     spec_check_edge_types srcs et = None →
     validate srcs dsts nm nrm None et ws = Ok ()).
Proof.
  split.
  - intros srcs dsts nm nrm nt et ws Hnm Hnt Hex.
    destruct (head_filter_exists (λ node, ¬ node < length nt) (srcs ++ dsts))
      as (node & Hhead & Hin & Hnode).
    { destruct Hex as (node & ? & ?). exists node. split; [done|lia]. }
    exists node. split_and!; [done|lia|].
    rewrite validate_refines. unfold validate_spec.
    unfold spec_check_node_mapping, spec_check_node_types, spec_check_existence.
    simpl. rewrite !decide_True by done. simpl. by rewrite Hhead.
  - intros srcs dsts nm nrm et ws Hnm Hws He.
    rewrite validate_refines. unfold validate_spec.
    rewrite Hnm, Hws, He. done.
Qed.

Lemma validate_existence_check_witness :
  (∃ node,
     node ∈ [0; 7] ++ [1; 0] ∧ length [0; 0] ≤ node ∧
     validate [0; 7] [1; 0] nodes_AB ["A"; "B"]
       (Some [0; 0]) None None = Err (DanglingNodeReference node)) ∧
  validate [0; 7] [9; 0] nodes_AB ["A"; "B"]
    None None (Some [f64_1; f64_2]) = Ok ().
Proof.
  split.
  - apply (proj1 validate_existence_check
             [0; 7] [1; 0] nodes_AB ["A"; "B"] [0; 0] None None).
    + reflexivity.
    + reflexivity.
    + exists 7. split; [apply list_elem_of_further, list_elem_of_here | simpl; lia].
  - apply (proj2 validate_existence_check
             [0; 7] [9; 0] nodes_AB ["A"; "B"]
             None (Some [f64_1; f64_2])); reflexivity.
Defined.

(** C8, as stated, fails: the validator accepts sources longer than the
    destinations, and the builder then panics on [destinations[x]] instead
    of returning a graph. *)
Lemma new_directed_panics_after_validation :
  validate [0; 1] [0] nodes_AB ["A"; "B"] None None None = Ok () ∧
  new_directed (H := keeping_par_sort) [0; 1] [0] nodes_AB
    ["A"; "B"] None None None None None None None None = Panic ∧
  new_undirected (H := keeping_par_sort) [0; 1] [0] nodes_AB
    ["A"; "B"] None None None None None None None None = Panic.
Proof. split_and!; vm_compute; reflexivity. Qed.

(** C8, amended. [new_directed] and [new_undirected] return an error if and
    only if validation is enabled (the flag is true, or omitted and thus
    true by default) and the validator rejects the input; the error returned
    is the validator's, unchanged, and an error carries no graph. Whenever
    the validator accepts or validation is disabled, a graph is returned
    provided the destinations and, when present, the weights and the edge
    types are at least as long as the sources. *)
Theorem builders_validation_gate `{ParSortUnstable}
    srcs dsts nm nrm nt ntm ntrm et etm etrm ws v :
  (∀ e,
     new_directed srcs dsts nm nrm nt ntm ntrm et etm etrm ws v = Err e ↔
     default true v = true ∧ validate srcs dsts nm nrm nt et ws = Err e) ∧
  (∀ e,
     new_undirected srcs dsts nm nrm nt ntm ntrm et etm etrm ws v = Err e ↔
     default true v = true ∧ validate srcs dsts nm nrm nt et ws = Err e) ∧
  (length srcs ≤ length dsts →
   (∀ w, ws = Some w → length srcs ≤ length w) →
   (∀ e, et = Some e → length srcs ≤ length e) →
   default true v = false ∨ validate srcs dsts nm nrm nt et ws = Ok () →
   (∃ g, new_directed srcs dsts nm nrm nt ntm ntrm et etm etrm ws v = Ok g) ∧
   (∃ g, new_undirected srcs dsts nm nrm nt ntm ntrm et etm etrm ws v = Ok g)).
Proof.
  split_and!.
  - intros e. apply new_directed_Err.
  - intros e. apply new_undirected_Err.
  - intros Hd Hw He Hgate.
    assert (default true v = true → validate srcs dsts nm nrm nt et ws = Ok ()).
    { intros Hv. destruct Hgate as [Hoff|Hok]; [congruence|done]. }
    split; [by apply new_directed_Ok | by apply new_undirected_Ok].
Qed.

Lemma builders_validation_gate_witness :
  (∀ e,
     new_directed (H := keeping_par_sort) [1; 0] [0; 0] nodes_AB ["A"; "B"]
       None None None None None None (Some [zero; f64_1]) None = Err e ↔
     default true None = true ∧
     validate [1; 0] [0; 0] nodes_AB ["A"; "B"] None None
       (Some [zero; f64_1]) = Err e) ∧
  (∀ e,
     new_undirected (H := keeping_par_sort) [1; 0] [0; 0] nodes_AB ["A"; "B"]
       None None None None None None (Some [zero; f64_1]) None = Err e ↔
     default true None = true ∧
     validate [1; 0] [0; 0] nodes_AB ["A"; "B"] None None
       (Some [zero; f64_1]) = Err e) ∧
  (∃ g,
     new_directed (H := keeping_par_sort) [1; 0] [0; 0] nodes_AB ["A"; "B"]
       None None None None None None (Some [zero; f64_1]) (Some false) = Ok g) ∧
  (∃ g,
     new_undirected (H := keeping_par_sort) [1; 0] [0; 0] nodes_AB ["A"; "B"]
       None None None None None None (Some [zero; f64_1]) (Some false) = Ok g).
Proof.
  pose proof (builders_validation_gate (H := keeping_par_sort)
                [1; 0] [0; 0] nodes_AB ["A"; "B"] None None None None None None
                (Some [zero; f64_1]) None) as (Hd & Hu & _).
  pose proof (builders_validation_gate (H := keeping_par_sort)
                [1; 0] [0; 0] nodes_AB ["A"; "B"] None None None None None None
                (Some [zero; f64_1]) (Some false)) as (_ & _ & Hok).
  split_and!; [exact Hd | exact Hu | |].
  - apply Hok; [simpl; lia | intros w [= <-]; simpl; lia | done | by left].
  - apply Hok; [simpl; lia | intros w [= <-]; simpl; lia | done | by left].
Defined.

(** C9. For every successful call of [new_directed] or [new_undirected] the
    node name-to-id mapping, the id-to-name sequence, the optional node-type
    array and the node-type and edge-type dictionaries of the returned graph
    are exactly the values the caller supplied. *)
Theorem builders_pass_through `{ParSortUnstable}
    srcs dsts nm nrm nt ntm ntrm et etm etrm ws v g :
  new_directed srcs dsts nm nrm nt ntm ntrm et etm etrm ws v = Ok g ∨
  new_undirected srcs dsts nm nrm nt ntm ntrm et etm etrm ws v = Ok g →
  nodes_mapping g = nm ∧
  nodes_reverse_mapping g = nrm ∧
  node_types g = nt ∧
  node_types_mapping g = ntm ∧
  node_types_reverse_mapping g = ntrm ∧
  edge_types_mapping g = etm ∧
  edge_types_reverse_mapping g = etrm.
Proof.
  intros [Hg|[_ Hg]%new_undirected_Ok_inv];
    apply new_directed_Ok_inv in Hg
      as (_ & _ & _ & _ & _ & _ & _ & ? & ? & ? & ? & ? & ? & ?); done.
Qed.

Lemma builders_pass_through_witness :
  ∃ g,
    new_undirected (H := keeping_par_sort) [0; 1] [1; 1] nodes_ABC
      ["A"; "B"; "C"] (Some [0; 1; 0]) (Some {[ "x" := 0; "y" := 1 ]})
      (Some ["x"; "y"]) (Some [0; 0]) (Some {[ "t" := 0 ]}) (Some ["t"])
      None None = Ok g ∧
    nodes_mapping g = nodes_ABC ∧
    nodes_reverse_mapping g = ["A"; "B"; "C"] ∧
    node_types g = Some [0; 1; 0] ∧
    node_types_mapping g = Some {[ "x" := 0; "y" := 1 ]} ∧
    node_types_reverse_mapping g = Some ["x"; "y"] ∧
    edge_types_mapping g = Some {[ "t" := 0 ]} ∧
    edge_types_reverse_mapping g = Some ["t"].
Proof.
  eexists. split; [vm_compute; reflexivity|].
  apply (builders_pass_through (H := keeping_par_sort)
           [0; 1] [1; 1] nodes_ABC ["A"; "B"; "C"] (Some [0; 1; 0])
           (Some {[ "x" := 0; "y" := 1 ]}) (Some ["x"; "y"]) (Some [0; 0])
           (Some {[ "t" := 0 ]}) (Some ["t"]) None None).
  right. vm_compute. reflexivity.
Defined.

(** C10. [validate] never compares the lengths of the sources and of the
    destinations: whenever [len(nodeNameToId) = len(nodeIdToName)] and the
    node types, edge types and weights are all absent it returns [Ok],
    whatever the two edge arrays are, also when their lengths differ. *)
Theorem validate_ignores_edge_lengths
    (srcs dsts : list NodeT) (nm : gmap string NodeT) (nrm : list string) :
  size nm = length nrm →
  validate srcs dsts nm nrm None None None = Ok ().
Proof.
  intros Hnm. unfold validate. by rewrite bool_decide_false by auto.
Qed.

Lemma validate_ignores_edge_lengths_witness :
  length [0; 1; 1] ≠ length [1] ∧
  validate [0; 1; 1] [1] nodes_AB ["A"; "B"] None None None = Ok ().
Proof.
  split; [simpl; lia|].
  apply (validate_ignores_edge_lengths [0; 1; 1] [1]
           nodes_AB ["A"; "B"]).
  reflexivity.
Defined.


(** * Further properties of the validator and of the builders *)

(** ** The validator *)

Section ValidatorAcceptance.

Lemma check_weight_Ok w : check_weight w = Ok () ↔ is_positive_finite w = true.
Proof. by destruct w as [[]|[]| |[] m e]. Qed.

Lemma first_failure_Ok checks :
  first_failure checks = Ok () ↔ Forall (λ c, c = None) checks.
Proof.
  induction checks as [|[e|] checks IH]; simpl.
  - split; [constructor | done].
  - split; [done | by inversion 1].
  - rewrite IH. split; [by constructor | by inversion 1].
Qed.

Lemma spec_check_existence_None srcs dsts nt :
  spec_check_existence srcs dsts nt = None ↔
  ∀ t, nt = Some t → Forall (λ n, n < length t) (srcs ++ dsts).
Proof.
  destruct nt as [t|]; simpl; [|by split].
  rewrite fmap_None. split.
  - intros Hhead t' [= <-]. apply Forall_forall. intros n Hn.
    destruct (decide (n < length t)) as [|Hge]; [done|].
    destruct (head_filter_exists (λ node, ¬ node < length t) (srcs ++ dsts))
      as (y & Hy & _); [by exists n | congruence].
  - intros Hall. specialize (Hall t eq_refl).
    destruct (filter _ (srcs ++ dsts)) as [|y l] eqn:Hf; [done|].
    assert (y ∈ filter (λ node, ¬ node < length t) (srcs ++ dsts)) as Hy
      by (rewrite Hf; apply list_elem_of_here).
    apply list_elem_of_filter in Hy as [Hy Hin].
    rewrite Forall_forall in Hall. by apply Hall in Hin.
Qed.

Lemma first_violation_None (w : list WeightT) :
  head (omap weight_violation w) = None ↔
  Forall (λ x, is_positive_finite x = true) w.
Proof.
  induction w as [|x w IH]; simpl; [by split|].
  pose proof (check_weight_Ok x) as Hx. rewrite check_weight_violation in Hx.
  rewrite Forall_cons, <- IH, <- Hx.
  destruct (weight_violation x); simpl; split; try done; by intros [? ?].
Qed.

Lemma spec_check_weights_None (srcs : list NodeT) ws :
  spec_check_weights srcs ws = None ↔
  ∀ w, ws = Some w →
    length w = length srcs ∧ Forall (λ x, is_positive_finite x = true) w.
Proof.
  destruct ws as [w|]; simpl; [|by split].
  destruct (decide (length w = length srcs)) as [Hlen|Hlen].
  - rewrite first_violation_None. split.
    + by intros Hw w' [= <-].
    + intros Hw. by destruct (Hw w eq_refl).
  - split; [done|]. intros Hw. by destruct (Hw w eq_refl).
Qed.

(** The inputs the validator accepts. *)
Lemma validate_Ok_iff srcs dsts nm nrm nt et ws :
  validate srcs dsts nm nrm nt et ws = Ok () ↔
  size nm = length nrm ∧
  (∀ t, nt = Some t →
     length t = length nrm ∧ Forall (λ n, n < length nrm) (srcs ++ dsts)) ∧
  (∀ w, ws = Some w →
     length w = length srcs ∧ Forall (λ x, is_positive_finite x = true) w) ∧
  (∀ e, et = Some e → length e = length srcs).
Proof.
  rewrite validate_refines. unfold validate_spec. rewrite first_failure_Ok.
  rewrite !Forall_cons, Forall_nil.
  rewrite spec_check_existence_None, spec_check_weights_None.
  unfold spec_check_node_mapping, spec_check_node_types, spec_check_edge_types.
  split.
  - intros (Hnm & Hnt & Hex & Hw & He & _).
    destruct (decide (size nm = length nrm)); [|done].
    split_and!; [done| |done|].
    + intros t ->. simpl in Hnt.
      destruct (decide (length t = length nrm)) as [Hlen|]; [|done].
      split; [done|]. rewrite <- Hlen. by apply Hex.
    + intros e' ->. simpl in He.
      by destruct (decide (length e' = length srcs)).
  - intros (Hnm & Hnt & Hw & He).
    split_and!; [by rewrite decide_True| | |done| |done].
    + destruct nt as [t|]; simpl; [|done].
      destruct (Hnt t eq_refl) as [Hlen _]. by rewrite decide_True.
    + intros t ->. destruct (Hnt t eq_refl) as [Hlen Hall]. by rewrite Hlen.
    + destruct et as [e'|]; simpl; [|done].
      by rewrite decide_True by (by apply He).
Qed.

End ValidatorAcceptance.

Section ValidatorErrors.

Lemma weight_violation_justified x e ws w :
  ws = Some w → x ∈ w → weight_violation x = Some e →
  ∀ srcs dsts nm nrm nt et, error_justified srcs dsts nm nrm nt et ws e.
Proof.
  intros -> Hx Hv srcs dsts nm nrm nt et.
  destruct x as [s|[]| |[] m ex]; vm_compute in Hv; try discriminate;
    injection Hv as <-; simpl.
  - by exists w, s.
  - exists w. split_and!; [done|done|by left].
  - by exists w.
  - by exists w.
  - exists w. split_and!; [done|done|]. right. by exists m, ex.
Qed.

Lemma first_violation_elem (w : list WeightT) e :
  head (omap weight_violation w) = Some e →
  ∃ x, x ∈ w ∧ weight_violation x = Some e.
Proof.
  intros (passed & x & rest & -> & _ & Hx)%first_violation_Some.
  exists x. split; [|done]. apply elem_of_app. right. apply list_elem_of_here.
Qed.

End ValidatorErrors.

(** X1. The validator's weight rules accept a double exactly when it is
    finite and strictly positive: both zeros, every negative value (also
    [-∞]), NaN and [+∞] are rejected, and nothing else is. *)
Theorem check_weight_accepts_positive_finite (w : WeightT) :
  check_weight w = Ok () ↔ is_positive_finite w = true.
Proof. apply check_weight_Ok. Qed.

(** X2. [validate] returns [Ok] exactly when the two node mappings have the
    same size, the node types (when present) have one entry per node and
    every id of the sources and of the destinations is less than the number
    of nodes, the weights (when present) have one finite and strictly
    positive entry per source, and the edge types (when present) have one
    entry per source. *)
Theorem validate_accepts_iff srcs dsts nm nrm nt et ws :
  validate srcs dsts nm nrm nt et ws = Ok () ↔
  size nm = length nrm ∧
  (∀ t, nt = Some t →
     length t = length nrm ∧ Forall (λ n, n < length nrm) (srcs ++ dsts)) ∧
  (∀ w, ws = Some w →
     length w = length srcs ∧ Forall (λ x, is_positive_finite x = true) w) ∧
  (∀ e, et = Some e → length e = length srcs).
Proof. apply validate_Ok_iff. Qed.

(** X3. Every error [validate] returns is justified by the input: a length
    mismatch carries the two lengths compared, which differ; a dangling
    node reference carries an id of the sources or of the destinations that
    is not less than the number of node types; a zero or negative weight
    error carries a weight of the input that is a zero, respectively
    negative; NaN is reported only when NaN is among the weights and
    infinite only when [+∞] is. *)
Theorem validate_errors_are_justified srcs dsts nm nrm nt et ws err :
  validate srcs dsts nm nrm nt et ws = Err err →
  error_justified srcs dsts nm nrm nt et ws err.
Proof.
  rewrite validate_refines. unfold validate_spec.
  intros (passed & rest & Hchecks & _)%first_failure_Err.
  assert (Hin : Some err ∈
            [ spec_check_node_mapping nm nrm; spec_check_node_types nrm nt;
              spec_check_existence srcs dsts nt; spec_check_weights srcs ws;
              spec_check_edge_types srcs et ]).
  { rewrite Hchecks. apply elem_of_app. right. apply list_elem_of_here. }
  clear Hchecks.
  repeat (apply elem_of_cons in Hin as [Hin|Hin]);
    [..|by apply not_elem_of_nil in Hin]; symmetry in Hin.
  - unfold spec_check_node_mapping in Hin.
    destruct (decide (size nm = length nrm)); [done|].
    injection Hin as <-. simpl. done.
  - destruct nt as [t|]; simpl in Hin; [|done].
    destruct (decide (length t = length nrm)); [done|].
    injection Hin as <-. simpl. by exists t.
  - destruct nt as [t|]; simpl in Hin; [|done].
    apply fmap_Some in Hin as (node & Hhead & ->). simpl. exists t.
    destruct (filter _ (srcs ++ dsts)) as [|y l] eqn:Hf; [done|].
    injection Hhead as ->.
    assert (node ∈ filter (λ node, ¬ node < length t) (srcs ++ dsts)) as Hy
      by (rewrite Hf; apply list_elem_of_here).
    apply list_elem_of_filter in Hy as [Hy Hnode]. split_and!; [done|done|lia].
  - destruct ws as [w|] eqn:Hws; simpl in Hin; [|done].
    destruct (decide (length w = length srcs)).
    + apply first_violation_elem in Hin as (x & Hx & Hv).
      by eapply weight_violation_justified.
    + injection Hin as <-. simpl. by exists w.
  - destruct et as [e'|]; simpl in Hin; [|done].
    destruct (decide (length e' = length srcs)); [done|].
    injection Hin as <-. simpl. by exists e'.
Qed.

Lemma validate_errors_are_justified_witness :
  validate [0; 1] [1; 0] nodes_AB ["A"; "B"] None None
    (Some [f64_1; f64_neg_infinity]) = Err (NegativeWeight f64_neg_infinity) ∧
  error_justified [0; 1] [1; 0] nodes_AB ["A"; "B"] None None
    (Some [f64_1; f64_neg_infinity]) (NegativeWeight f64_neg_infinity).
Proof.
  split; [reflexivity|].
  apply (validate_errors_are_justified [0; 1] [1; 0] nodes_AB ["A"; "B"]
           None None (Some [f64_1; f64_neg_infinity])).
  reflexivity.
Defined.

(** ** When the builders panic *)

Section BuilderPanics.
Context `{ParSortUnstable}.

Lemma not_short_array srcs dsts ws et :
  ¬ short_array srcs dsts ws et ↔
  length srcs ≤ length dsts ∧
  (∀ w, ws = Some w → length srcs ≤ length w) ∧
  (∀ e, et = Some e → length srcs ≤ length e).
Proof.
  unfold short_array. split.
  - intros Hns. split_and!.
    + destruct (decide (length srcs ≤ length dsts)); [done|].
      exfalso. apply Hns. left. lia.
    + intros w ->. destruct (decide (length srcs ≤ length w)); [done|].
      exfalso. apply Hns. right. left. exists w. split; [done|lia].
    + intros e ->. destruct (decide (length srcs ≤ length e)); [done|].
      exfalso. apply Hns. right. right. exists e. split; [done|lia].
  - intros (Hd & Hw & He) [?|[(w & -> & ?)|(e & -> & ?)]].
    + lia.
    + specialize (Hw w eq_refl). lia.
    + specialize (He e eq_refl). lia.
Qed.

#[local] Instance short_array_dec srcs dsts ws et :
  Decision (short_array srcs dsts ws et).
Proof.
  unfold short_array.
  destruct (decide (length dsts < length srcs)); [left; by left|].
  destruct ws as [w|].
  - destruct (decide (length w < length srcs)); [left; right; left; by exists w|].
    destruct et as [e|].
    + destruct (decide (length e < length srcs));
        [left; right; right; by exists e|].
      right. intros [?|[(? & [= <-] & ?)|(? & [= <-] & ?)]]; done.
    + right. intros [?|[(? & [= <-] & ?)|(? & [=] & ?)]]; done.
  - destruct et as [e|].
    + destruct (decide (length e < length srcs));
        [left; right; right; by exists e|].
      right. intros [?|[(? & [=] & ?)|(? & [= <-] & ?)]]; done.
    + right. intros [?|[(? & [=] & ?)|(? & [=] & ?)]]; done.
Qed.

Lemma new_directed_Panic_iff srcs dsts nm nrm nt ntm ntrm et etm etrm ws v :
  new_directed srcs dsts nm nrm nt ntm ntrm et etm etrm ws v = Panic ↔
  gate_passed v (validate srcs dsts nm nrm nt et ws) ∧
  short_array srcs dsts ws et.
Proof.
  unfold gate_passed. split.
  - intros Hp. split.
    + intros Hv.
      destruct (validate srcs dsts nm nrm nt et ws) as [[]|e|] eqn:Hval; [done|..].
      * assert (new_directed srcs dsts nm nrm nt ntm ntrm et etm etrm ws v = Err e)
          as Herr by (by apply new_directed_Err).
        congruence.
      * by apply validate_not_Panic in Hval.
    + destruct (decide (short_array srcs dsts ws et)) as [|Hns]; [done|].
      apply not_short_array in Hns as (Hd & Hw & He).
      destruct (new_directed_Ok srcs dsts nm nrm nt ntm ntrm et etm etrm ws v)
        as [g Hg]; [|done..|congruence].
      intros Hv.
      destruct (validate srcs dsts nm nrm nt et ws) as [[]|e|] eqn:Hval; [done|..].
      * assert (new_directed srcs dsts nm nrm nt ntm ntrm et etm etrm ws v = Err e)
          as Herr by (by apply new_directed_Err).
        congruence.
      * by apply validate_not_Panic in Hval.
  - intros [Hgate Hshort].
    destruct (new_directed srcs dsts nm nrm nt ntm ntrm et etm etrm ws v)
      as [g|e|] eqn:Hg; [| |done].
    + apply new_directed_Ok_lengths in Hg. by apply not_short_array in Hg.
    + apply new_directed_Err in Hg as [Hv Hg]. rewrite Hgate in Hg; done.
Qed.

Lemma not_masked_length_le {A} (v : list A) mask :
  length (not_masked v mask) ≤ length (filter (λ b, b = false) mask).
Proof.
  unfold not_masked. rewrite length_fmap. revert mask.
  induction v as [|a v IH]; intros [|m mask]; simpl; try lia.
  rewrite !filter_cons. simpl. specialize (IH mask).
  destruct (decide (m = false)); simpl; lia.
Qed.

(** A successful call of [new_undirected] leaves no input array shorter
    than the sources. *)
Lemma new_undirected_Ok_lengths srcs dsts nm nrm nt ntm ntrm et etm etrm ws v g :
  new_undirected srcs dsts nm nrm nt ntm ntrm et etm etrm ws v = Ok g →
  ¬ short_array srcs dsts ws et.
Proof.
  intros [_ Hg]%new_undirected_Ok_inv.
  apply new_directed_Ok_lengths in Hg as (Hd & Hw & He).
  pose proof (length_loops_mask srcs dsts) as Hm.
  rewrite !length_app in Hd.
  rewrite (not_masked_length dsts), (not_masked_length srcs) in Hd by lia.
  apply not_short_array. split_and!; [lia|..].
  - intros w ->. specialize (Hw _ eq_refl). rewrite !length_app in Hw.
    rewrite (not_masked_length dsts) in Hw by lia.
    pose proof (not_masked_length_le w (loops_mask srcs dsts)). lia.
  - intros e ->. specialize (He _ eq_refl). rewrite !length_app in He.
    rewrite (not_masked_length dsts) in He by lia.
    pose proof (not_masked_length_le e (loops_mask srcs dsts)). lia.
Qed.

End BuilderPanics.

(** X4. [new_directed] panics exactly when the input passes the validation
    gate (validation disabled, or the validator accepts) and the
    destinations, the weights or the edge types are shorter than the
    sources. *)
Theorem new_directed_panics_iff `{ParSortUnstable}
    srcs dsts nm nrm nt ntm ntrm et etm etrm ws v :
  new_directed srcs dsts nm nrm nt ntm ntrm et etm etrm ws v = Panic ↔
  gate_passed v (validate srcs dsts nm nrm nt et ws) ∧
  short_array srcs dsts ws et.
Proof. apply new_directed_Panic_iff. Qed.

(** X5. [new_undirected] panics under the same condition as [new_directed]:
    exactly when the input passes the validation gate and the destinations,
    the weights or the edge types are shorter than the sources. Appending
    the mirrored edges never repairs and never causes a short array. *)
Theorem new_undirected_panics_iff `{ParSortUnstable}
    srcs dsts nm nrm nt ntm ntrm et etm etrm ws v :
  new_undirected srcs dsts nm nrm nt ntm ntrm et etm etrm ws v = Panic ↔
  gate_passed v (validate srcs dsts nm nrm nt et ws) ∧
  short_array srcs dsts ws et.
Proof.
  unfold gate_passed. split.
  - intros Hp.
    assert (Hgate : default true v = true →
                    validate srcs dsts nm nrm nt et ws = Ok ()).
    { intros Hv.
      destruct (validate srcs dsts nm nrm nt et ws) as [[]|e|] eqn:Hval; [done|..].
      * assert (new_undirected srcs dsts nm nrm nt ntm ntrm et etm etrm ws v
                = Err e) as Herr by (by apply new_undirected_Err).
        congruence.
      * by apply validate_not_Panic in Hval. }
    split; [done|].
    destruct (short_array_dec srcs dsts ws et) as [|Hns]; [done|].
    apply not_short_array in Hns as (Hd & Hw & He).
    destruct (new_undirected_Ok srcs dsts nm nrm nt ntm ntrm et etm etrm ws v)
      as [g Hg]; [done..|congruence].
  - intros [Hgate Hshort].
    destruct (new_undirected srcs dsts nm nrm nt ntm ntrm et etm etrm ws v)
      as [g|e|] eqn:Hg; [| |done].
    + by apply new_undirected_Ok_lengths in Hg.
    + apply new_undirected_Err in Hg as [Hv Hg]. rewrite Hgate in Hg; done.
Qed.

(** ** Endpoints and lengths of the built graph *)

Section BuiltArrays.
Context `{ParSortUnstable}.

Lemma permuted_by_elem_of {A} π (v v' : list A) x :
  permuted_by π v v' → x ∈ v' → x ∈ v.
Proof.
  intros Hperm [i Hi]%list_elem_of_lookup.
  destruct (Forall2_lookup_r _ _ _ _ _ Hperm Hi) as (p & _ & Hp).
  by eapply list_elem_of_lookup_2.
Qed.

Lemma not_masked_elem_of {A} (v : list A) mask x :
  x ∈ not_masked v mask → x ∈ v.
Proof.
  unfold not_masked. intros ([a m] & -> & Hin)%list_elem_of_fmap.
  apply list_elem_of_filter in Hin as [_ Hin].
  apply list_elem_of_lookup in Hin as [i Hi].
  apply lookup_zip_with_Some in Hi as (a' & m' & [= <- <-] & Ha & _).
  by eapply list_elem_of_lookup_2.
Qed.

Lemma new_directed_endpoints srcs dsts nm nrm nt ntm ntrm et etm etrm ws v g x :
  new_directed srcs dsts nm nrm nt ntm ntrm et etm etrm ws v = Ok g →
  x ∈ sources g ++ destinations g → x ∈ srcs ++ dsts.
Proof.
  intros (_ & Hs & Hd & _)%new_directed_Ok_inv.
  rewrite !elem_of_app. intros [Hx|Hx]; [left|right];
    by eapply permuted_by_elem_of.
Qed.

Lemma new_undirected_endpoints srcs dsts nm nrm nt ntm ntrm et etm etrm ws v g x :
  new_undirected srcs dsts nm nrm nt ntm ntrm et etm etrm ws v = Ok g →
  x ∈ sources g ++ destinations g → x ∈ srcs ++ dsts.
Proof.
  intros [_ Hg]%new_undirected_Ok_inv Hx.
  apply (new_directed_endpoints _ _ _ _ _ _ _ _ _ _ _ _ _ _ Hg) in Hx.
  rewrite !elem_of_app in Hx. rewrite elem_of_app.
  destruct Hx as [[?|?%not_masked_elem_of]|[?|?%not_masked_elem_of]]; auto.
Qed.

End BuiltArrays.

(** X6. A graph built by [new_directed] or [new_undirected] with validation
    enabled and node types supplied has no dangling endpoint: every id in
    its sorted sources and destinations is less than the number of nodes
    and than the number of node types, which the graph carries unchanged. *)
Theorem validated_graph_has_no_dangling_endpoint `{ParSortUnstable}
    srcs dsts nm nrm nt ntm ntrm et etm etrm ws v g t :
  new_directed srcs dsts nm nrm nt ntm ntrm et etm etrm ws v = Ok g ∨
  new_undirected srcs dsts nm nrm nt ntm ntrm et etm etrm ws v = Ok g →
  default true v = true →
  nt = Some t →
  node_types g = Some t ∧
  ∀ n, n ∈ sources g ++ destinations g →
       n < length (nodes_reverse_mapping g) ∧ n < length t.
Proof.
  intros Hg Hv ->.
  assert (Hval : validate srcs dsts nm nrm (Some t) et ws = Ok ()).
  { destruct Hg as [Hg|Hg].
    - apply new_directed_Ok_inv in Hg as [Hval _]. by apply Hval.
    - apply new_undirected_Ok_inv in Hg as [Hval _]. by apply Hval. }
  apply validate_Ok_iff in Hval as (_ & Hnt & _).
  destruct (Hnt t eq_refl) as [Hlen Hall]. rewrite Forall_forall in Hall.
  assert (Hfields : node_types g = Some t ∧ nodes_reverse_mapping g = nrm).
  { destruct Hg as [Hg|[_ Hg]%new_undirected_Ok_inv];
      apply new_directed_Ok_inv in Hg
        as (_ & _ & _ & _ & _ & _ & _ & _ & ? & ? & _); done. }
  destruct Hfields as [Hgt Hgn]. split; [done|].
  intros n Hn. rewrite Hgn, Hlen.
  assert (n ∈ srcs ++ dsts) as Hin.
  { destruct Hg as [Hg|Hg];
      [by eapply new_directed_endpoints | by eapply new_undirected_endpoints]. }
  apply Hall in Hin. lia.
Qed.

Lemma validated_graph_has_no_dangling_endpoint_witness :
  ∃ g,
    new_undirected (H := reversing_par_sort) [0; 2; 1] [1; 2; 0] nodes_ABC
      ["A"; "B"; "C"] (Some [4; 5; 4]) None None None None None None None
    = Ok g ∧
    node_types g = Some [4; 5; 4] ∧
    ∀ n, n ∈ sources g ++ destinations g →
         n < length (nodes_reverse_mapping g) ∧ n < length [4; 5; 4].
Proof.
  eexists. split; [vm_compute; reflexivity|].
  apply (validated_graph_has_no_dangling_endpoint (H := reversing_par_sort)
           [0; 2; 1] [1; 2; 0] nodes_ABC ["A"; "B"; "C"] (Some [4; 5; 4])
           None None None None None None None).
  - right. vm_compute. reflexivity.
  - reflexivity.
  - reflexivity.
Defined.

Section Prefix.
Context `{ParSortUnstable}.

Lemma try_map_ext {A B} (f g : A → Result B) (l : list A) :
  Forall (λ x, f x = g x) l → try_map f l = try_map g l.
Proof.
  induction 1 as [|x l Hx _ IH]; simpl; [done|]. by rewrite Hx, IH.
Qed.

Lemma try_map_index_take {A} (v : list A) n idx :
  Forall (λ p, p < n) idx →
  try_map (index (take n v)) idx = try_map (index v) idx.
Proof.
  intros Hidx. apply try_map_ext. eapply Forall_impl; [exact Hidx|].
  intros p Hp. simpl in *. unfold index. by rewrite lookup_take_lt.
Qed.

End Prefix.

(** X7. With validation disabled [new_directed] reads only the first
    [len(sources)] entries of the destinations, of the weights and of the
    edge types: truncating these arrays to the length of the sources does
    not change the outcome, so surplus entries are dropped silently. *)
Theorem new_directed_reads_only_prefix `{ParSortUnstable}
    srcs dsts nm nrm nt ntm ntrm et etm etrm ws :
  new_directed srcs dsts nm nrm nt ntm ntrm et etm etrm ws (Some false) =
  new_directed srcs (take (length srcs) dsts) nm nrm nt ntm ntrm
    (take (length srcs) <$> et) etm etrm (take (length srcs) <$> ws)
    (Some false).
Proof.
  unfold new_directed. fold (sort_indices srcs). simpl default. cbv iota.
  pose proof (sort_indices_in_bounds srcs) as Hπ.
  rewrite zip_with_take_r.
  rewrite (try_map_index_take dsts) by done.
  assert (Hws : option_try_map (λ w, try_map (index w) (sort_indices srcs))
                  (take (length srcs) <$> ws) =
                option_try_map (λ w, try_map (index w) (sort_indices srcs)) ws).
  { destruct ws as [w|]; simpl; [|done]. by rewrite try_map_index_take. }
  assert (Het : option_try_map (λ w, try_map (index w) (sort_indices srcs))
                  (take (length srcs) <$> et) =
                option_try_map (λ w, try_map (index w) (sort_indices srcs)) et).
  { destruct et as [e|]; simpl; [|done]. by rewrite try_map_index_take. }
  by rewrite Hws, Het.
Qed.

Section UndirectedCount.
Context `{ParSortUnstable}.

Lemma loops_mask_false_count srcs dsts :
  length (filter (λ b, b = false) (loops_mask srcs dsts)) =
  length (filter (λ p : NodeT * NodeT, p.1 ≠ p.2) (zip srcs dsts)).
Proof.
  unfold loops_mask. induction (zip srcs dsts) as [|[a b] l IH]; [done|].
  rewrite fmap_cons, !filter_cons. simpl.
  destruct (decide (a = b)) as [->|Hne].
  - rewrite bool_decide_true by done.
    rewrite decide_False by done. rewrite decide_False by auto. done.
  - rewrite bool_decide_false by done.
    rewrite decide_True by done. rewrite decide_True by done. simpl. by rewrite IH.
Qed.

Lemma option_permuted_by_length {A} π (o o' : option (list A)) l :
  option_Forall2 (permuted_by π) o o' → o' = Some l → length l = length π.
Proof.
  intros [w w' Hw|]; intros [= <-]. by eapply permuted_by_length.
Qed.

End UndirectedCount.

(** X8. A graph returned by [new_undirected] has one edge per input edge
    plus one per input edge that is not a self-loop (input edges being the
    pairs of [zip(sources, destinations)]), and its destinations, weights
    and edge types have exactly that length. *)
Theorem new_undirected_edge_count `{ParSortUnstable}
    srcs dsts nm nrm nt ntm ntrm et etm etrm ws v g :
  new_undirected srcs dsts nm nrm nt ntm ntrm et etm etrm ws v = Ok g →
  length (sources g) =
    length srcs + length (filter (λ p : NodeT * NodeT, p.1 ≠ p.2) (zip srcs dsts)) ∧
  length (destinations g) = length (sources g) ∧
  (∀ w, weights g = Some w → length w = length (sources g)) ∧
  (∀ e, edge_types g = Some e → length e = length (sources g)).
Proof.
  intros [_ Hg]%new_undirected_Ok_inv.
  apply new_directed_Ok_inv in Hg as (_ & Hs & Hd & Hw & He & _).
  pose proof (length_loops_mask srcs dsts) as Hm.
  rewrite (permuted_by_length _ _ _ Hs), (permuted_by_length _ _ _ Hd).
  rewrite sort_indices_length, length_app.
  rewrite not_masked_length by lia. rewrite loops_mask_false_count.
  split_and!; [done|done|..].
  - intros w Hgw. rewrite (option_permuted_by_length _ _ _ _ Hw Hgw).
    by rewrite sort_indices_length, length_app, not_masked_length,
      loops_mask_false_count by lia.
  - intros e Hge. rewrite (option_permuted_by_length _ _ _ _ He Hge).
    by rewrite sort_indices_length, length_app, not_masked_length,
      loops_mask_false_count by lia.
Qed.

Lemma new_undirected_edge_count_witness :
  ∃ g,
    new_undirected (H := keeping_par_sort) [0; 1; 2; 2] [1; 1; 0; 2] nodes_ABC
      ["A"; "B"; "C"] None None None (Some [3; 3; 4; 4]) None None
      (Some [f64_1; f64_2; f64_3; f64_1]) None = Ok g ∧
    length (sources g) = 4 + 2 ∧
    length (destinations g) = length (sources g) ∧
    (∀ w, weights g = Some w → length w = length (sources g)) ∧
    (∀ e, edge_types g = Some e → length e = length (sources g)).
Proof.
  eexists. split; [vm_compute; reflexivity|].
  apply (new_undirected_edge_count (H := keeping_par_sort)
           [0; 1; 2; 2] [1; 1; 0; 2] nodes_ABC ["A"; "B"; "C"]
           None None None (Some [3; 3; 4; 4]) None None
           (Some [f64_1; f64_2; f64_3; f64_1]) None).
  vm_compute. reflexivity.
Defined.

(** ** Symmetry of the undirected graph *)

Section Symmetry.
Context `{ParSortUnstable}.

Lemma mirror_involutive r : mirror (mirror r) = r.
Proof. by destruct r as [[[s d] w] t]. Qed.

Lemma mirror_self_loop r : is_self_loop r → mirror r = r.
Proof. destruct r as [[[s d] w] t]. unfold is_self_loop. simpl. by intros ->. Qed.

Lemma fmap_mirror_self_loops (l : list Row) :
  Forall is_self_loop l → mirror <$> l = l.
Proof.
  induction 1 as [|r l Hr _ IH]; [done|].
  by rewrite fmap_cons, mirror_self_loop, IH.
Qed.

(** The multiset of the input rows and of their mirrors is closed under
    [mirror]. *)
Lemma symmetrized_rows_closed (R : list Row) :
  mirror <$> (R ++ (mirror <$> filter (λ r, ¬ is_self_loop r) R)) ≡ₚ
  R ++ (mirror <$> filter (λ r, ¬ is_self_loop r) R).
Proof.
  set (F := filter (λ r, ¬ is_self_loop r) R).
  set (L := filter (λ r, ¬ ¬ is_self_loop r) R).
  assert (HR : F ++ L ≡ₚ R) by apply filter_app_complement.
  assert (HL : mirror <$> L = L).
  { apply fmap_mirror_self_loops, Forall_forall. intros r Hr.
    apply list_elem_of_filter in Hr as [Hr _].
    destruct (decide (is_self_loop r)); [done|by destruct Hr]. }
  rewrite fmap_app, <- list_fmap_compose.
  rewrite (list_fmap_ext (mirror ∘ mirror) id F) by
    (intros; simpl; apply mirror_involutive).
  rewrite list_fmap_id. clearbody F L. rewrite <- HR.
  rewrite fmap_app, HL. solve_Permutation.
Qed.

End Symmetry.

(** X9. The edge multiset of a graph returned by [new_undirected] is closed
    under reversal when the input arrays have equal lengths: reversing
    every edge, keeping its weight and edge type, gives the same multiset
    of rows, so each edge [(s, d)] occurs as often as [(d, s)] with the same
    weight and type. *)
Theorem new_undirected_rows_symmetric `{ParSortUnstable}
    srcs dsts nm nrm nt ntm ntrm et etm etrm ws v g :
  new_undirected srcs dsts nm nrm nt ntm ntrm et etm etrm ws v = Ok g →
  length dsts = length srcs →
  (∀ w, ws = Some w → length w = length srcs) →
  (∀ e, et = Some e → length e = length srcs) →
  mirror <$> graph_rows g ≡ₚ graph_rows g.
Proof.
  intros Hg Hd Hw He.
  rewrite (new_undirected_rows _ _ _ _ _ _ _ _ _ _ _ _ _ Hg Hd Hw He).
  apply symmetrized_rows_closed.
Qed.

Lemma new_undirected_rows_symmetric_witness :
  ∃ g,
    new_undirected (H := reversing_par_sort) [0; 1; 2; 1] [1; 2; 2; 0] nodes_ABC
      ["A"; "B"; "C"] None None None None None None
      (Some [f64_1; f64_2; f64_3; f64_2]) None = Ok g ∧
    mirror <$> graph_rows g ≡ₚ graph_rows g.
Proof.
  eexists. split; [vm_compute; reflexivity|].
  apply (new_undirected_rows_symmetric (H := reversing_par_sort)
           [0; 1; 2; 1] [1; 2; 2; 0] nodes_ABC ["A"; "B"; "C"]
           None None None None None None
           (Some [f64_1; f64_2; f64_3; f64_2]) None).
  - vm_compute. reflexivity.
  - reflexivity.
  - intros w [= <-]. reflexivity.
  - intros e [=].
Defined.

(** ** Queries on the dedup index *)

Section DedupQueries.
Context `{ParSortUnstable}.

Lemma dedup_index_is_Some srcs dsts k :
  is_Some (dedup_index srcs dsts !! k) ↔ k ∈ zip srcs dsts.
Proof.
  unfold dedup_index. rewrite dedup_entries.
  generalize (zip srcs dsts) as rows. clear srcs dsts.
  induction rows as [|r rows IH] using rev_ind.
  - unfold HashMap_from_iter. simpl. rewrite lookup_empty.
    split; [by intros [? ?] | by intros ?%not_elem_of_nil].
  - rewrite imap_app. simpl. rewrite Nat.add_0_r, HashMap_from_iter_snoc.
    rewrite lookup_insert_is_Some, elem_of_app, list_elem_of_singleton, IH.
    destruct (decide (r = k)) as [->|Hne].
    + split; [intros _; by right | intros _; by left].
    + split.
      * intros [?|[_ ?]]; [done | by left].
      * intros [?|?]; [right; by split | done].
Qed.

Lemma dedup_index_size srcs dsts :
  size (dedup_index srcs dsts) ≤ length (zip srcs dsts).
Proof.
  unfold dedup_index. rewrite dedup_entries.
  generalize (zip srcs dsts) as rows. clear srcs dsts.
  induction rows as [|r rows IH] using rev_ind.
  - unfold HashMap_from_iter. simpl. by rewrite map_size_empty.
  - rewrite imap_app. simpl. rewrite Nat.add_0_r, HashMap_from_iter_snoc.
    rewrite map_size_insert, length_app. cbn [length].
    destruct (_ !! r); unfold id; lia.
Qed.

End DedupQueries.

(** X10. In a graph returned by [new_directed] the dedup index has an entry
    for a pair exactly when the pair is an input edge; every stored value is
    less than the edge count of the graph; two different pairs never share
    a value; and the index has at most as many entries as the graph has
    edges. *)
Theorem dedup_index_answers_edge_queries `{ParSortUnstable}
    srcs dsts nm nrm nt ntm ntrm et etm etrm ws v g :
  new_directed srcs dsts nm nrm nt ntm ntrm et etm etrm ws v = Ok g →
  (∀ k, is_Some (unique_edges g !! k) ↔ k ∈ zip srcs dsts) ∧
  (∀ k p, unique_edges g !! k = Some p → p < length (sources g)) ∧
  (∀ k1 k2 p,
     unique_edges g !! k1 = Some p → unique_edges g !! k2 = Some p → k1 = k2) ∧
  size (unique_edges g) ≤ length (sources g).
Proof.
  intros Hg.
  destruct (new_directed_Ok_lengths _ _ _ _ _ _ _ _ _ _ _ _ _ Hg) as (Hld & _).
  apply new_directed_Ok_inv in Hg as (_ & Hs & _ & _ & _ & _ & Hu & _).
  assert (Hlen : length (zip srcs dsts) = length (sources g)).
  { rewrite (permuted_by_length _ _ _ Hs), sort_indices_length.
    rewrite length_zip_with. lia. }
  rewrite Hu. split_and!.
  - intros k. apply dedup_index_is_Some.
  - intros k p [Hp _]%dedup_index_lookup.
    apply lookup_lt_Some in Hp. lia.
  - intros k1 k2 p [H1 _]%dedup_index_lookup [H2 _]%dedup_index_lookup.
    congruence.
  - rewrite <- Hlen. apply dedup_index_size.
Qed.

Lemma dedup_index_answers_edge_queries_witness :
  ∃ g,
    new_directed (H := reversing_par_sort) [2; 0; 2; 1] [1; 2; 1; 1] nodes_ABC
      ["A"; "B"; "C"] None None None None None None None None = Ok g ∧
    (∀ k, is_Some (unique_edges g !! k) ↔ k ∈ [(2, 1); (0, 2); (2, 1); (1, 1)]) ∧
    (∀ k p, unique_edges g !! k = Some p → p < length (sources g)) ∧
    (∀ k1 k2 p,
       unique_edges g !! k1 = Some p → unique_edges g !! k2 = Some p → k1 = k2) ∧
    size (unique_edges g) ≤ length (sources g).
Proof.
  eexists. split; [vm_compute; reflexivity|].
  apply (dedup_index_answers_edge_queries (H := reversing_par_sort)
           [2; 0; 2; 1] [1; 2; 1; 1] nodes_ABC ["A"; "B"; "C"]
           None None None None None None None None).
  vm_compute. reflexivity.
Defined.

Section UndirectedQueries.
Context `{ParSortUnstable}.

Lemma zip_swap {A B} (a : list A) (b : list B) :
  zip b a = prod_swap <$> zip a b.
Proof.
  revert b. induction a as [|x a IH]; intros [|y b]; simpl; try done.
  by rewrite IH.
Qed.

Lemma loops_mask_zip srcs dsts :
  loops_mask srcs dsts =
  (λ p : NodeT * NodeT, bool_decide (p.1 = p.2)) <$> zip srcs dsts.
Proof. unfold loops_mask. apply list_fmap_ext. by intros _ [a b] _. Qed.

(** The pairs appended by the symmetrization. *)
Lemma elem_of_mirrored_pairs srcs dsts s d :
  (s, d) ∈ zip (not_masked dsts (loops_mask srcs dsts))
               (not_masked srcs (loops_mask srcs dsts)) ↔
  (d, s) ∈ zip srcs dsts ∧ d ≠ s.
Proof.
  rewrite not_masked_zip, zip_swap, loops_mask_zip, not_masked_fmap.
  rewrite not_masked_self, list_elem_of_fmap. split.
  - intros ([a b] & [= -> ->] & [Hab Hin]%list_elem_of_filter).
    simpl in Hab. apply bool_decide_eq_false in Hab. done.
  - intros [Hin Hne]. exists (d, s). split; [done|].
    apply list_elem_of_filter. split; [|done].
    simpl. by apply bool_decide_eq_false.
Qed.

Lemma new_undirected_keys srcs dsts nm nrm nt ntm ntrm et etm etrm ws v g :
  new_undirected srcs dsts nm nrm nt ntm ntrm et etm etrm ws v = Ok g →
  length dsts = length srcs →
  ∀ s d,
    is_Some (unique_edges g !! (s, d)) ↔
    (s, d) ∈ zip srcs dsts ∨ (d, s) ∈ zip srcs dsts.
Proof.
  intros [_ Hg]%new_undirected_Ok_inv Hlen s d.
  apply new_directed_Ok_inv in Hg as (_ & _ & _ & _ & _ & _ & Hu & _).
  rewrite Hu, dedup_index_is_Some.
  rewrite zip_with_app by done.
  rewrite elem_of_app, elem_of_mirrored_pairs. split.
  - intros [?|[? _]]; auto.
  - intros [?|Hds]; [by left|].
    destruct (decide (d = s)) as [->|Hne]; [by left | by right].
Qed.

End UndirectedQueries.

(** X11. In a graph returned by [new_undirected] from sources and
    destinations of equal length, the dedup index has an entry for [(s, d)]
    exactly when [(s, d)] or [(d, s)] is an input edge; hence an edge query
    gives the same answer for a pair and for its reverse. *)
Theorem new_undirected_edge_queries_symmetric `{ParSortUnstable}
    srcs dsts nm nrm nt ntm ntrm et etm etrm ws v g :
  new_undirected srcs dsts nm nrm nt ntm ntrm et etm etrm ws v = Ok g →
  length dsts = length srcs →
  (∀ s d,
     is_Some (unique_edges g !! (s, d)) ↔
     (s, d) ∈ zip srcs dsts ∨ (d, s) ∈ zip srcs dsts) ∧
  (∀ s d,
     is_Some (unique_edges g !! (s, d)) ↔ is_Some (unique_edges g !! (d, s))).
Proof.
  intros Hg Hlen.
  pose proof (new_undirected_keys _ _ _ _ _ _ _ _ _ _ _ _ _ Hg Hlen) as Hkeys.
  split; [done|]. intros s d. rewrite !Hkeys. tauto.
Qed.

Lemma new_undirected_edge_queries_symmetric_witness :
  ∃ g,
    new_undirected (H := keeping_par_sort) [0; 1; 2] [1; 2; 2] nodes_ABC
      ["A"; "B"; "C"] None None None None None None None None = Ok g ∧
    (∀ s d,
       is_Some (unique_edges g !! (s, d)) ↔
       (s, d) ∈ [(0, 1); (1, 2); (2, 2)] ∨ (d, s) ∈ [(0, 1); (1, 2); (2, 2)]) ∧
    (∀ s d,
       is_Some (unique_edges g !! (s, d)) ↔ is_Some (unique_edges g !! (d, s))).
Proof.
  eexists. split; [vm_compute; reflexivity|].
  apply (new_undirected_edge_queries_symmetric (H := keeping_par_sort)
           [0; 1; 2] [1; 2; 2] nodes_ABC ["A"; "B"; "C"]
           None None None None None None None None).
  - vm_compute. reflexivity.
  - reflexivity.
Defined.

(** ** How the two builders relate *)

Section SelfLoops.
Context `{ParSortUnstable}.

Lemma not_masked_all_masked {A} (v : list A) mask :
  Forall (λ b, b = true) mask → not_masked v mask = [].
Proof.
  unfold not_masked. intros Hmask. revert v.
  induction Hmask as [|m mask -> _ IH]; intros [|a v]; simpl; try done.
  rewrite filter_cons_False by (simpl; done). apply IH.
Qed.

Lemma loops_mask_same srcs : Forall (λ b, b = true) (loops_mask srcs srcs).
Proof.
  unfold loops_mask. induction srcs as [|a srcs IH]; simpl; constructor; [|done].
  by apply bool_decide_eq_true.
Qed.

End SelfLoops.

(** X12. On an input whose every edge is a self-loop (the destinations are
    the sources) [new_undirected] does exactly what [new_directed] does:
    nothing is mirrored, and the outcome (graph, error or panic) is the
    same. *)
Theorem new_undirected_on_self_loops `{ParSortUnstable}
    srcs nm nrm nt ntm ntrm et etm etrm ws v :
  new_undirected srcs srcs nm nrm nt ntm ntrm et etm etrm ws v =
  new_directed srcs srcs nm nrm nt ntm ntrm et etm etrm ws v.
Proof.
  rewrite new_undirected_unfold.
  rewrite !not_masked_all_masked by apply loops_mask_same.
  rewrite app_nil_r.
  assert (Het : (λ e, e ++ not_masked e (loops_mask srcs srcs)) <$> et = et).
  { destruct et as [e|]; simpl; [|done].
    by rewrite not_masked_all_masked, app_nil_r by apply loops_mask_same. }
  assert (Hws : (λ w, w ++ not_masked w (loops_mask srcs srcs)) <$> ws = ws).
  { destruct ws as [w|]; simpl; [|done].
    by rewrite not_masked_all_masked, app_nil_r by apply loops_mask_same. }
  rewrite Het, Hws. unfold new_directed. simpl default.
  by destruct (if default true v then _ else _) as [[]| |].
Qed.

(** X13. The arrays [new_undirected] hands to [new_directed] with validation
    disabled would pass validation: whenever [validate] accepts the input,
    it also accepts the sources, destinations, edge types and weights
    extended with the mirrored edges. *)
Theorem symmetrized_arrays_stay_valid srcs dsts nm nrm nt et ws :
  validate srcs dsts nm nrm nt et ws = Ok () →
  validate
    (srcs ++ not_masked dsts (loops_mask srcs dsts))
    (dsts ++ not_masked srcs (loops_mask srcs dsts))
    nm nrm nt
    ((λ e, e ++ not_masked e (loops_mask srcs dsts)) <$> et)
    ((λ w, w ++ not_masked w (loops_mask srcs dsts)) <$> ws) = Ok ().
Proof.
  rewrite !validate_Ok_iff. intros (Hnm & Hnt & Hw & He).
  pose proof (length_loops_mask srcs dsts) as Hm.
  split_and!; [done|..].
  - intros t Ht. destruct (Hnt t Ht) as [Hlen Hall]. split; [done|].
    rewrite Forall_forall in Hall. apply Forall_forall. intros n Hn.
    apply Hall. rewrite !elem_of_app in Hn. rewrite elem_of_app.
    destruct Hn as [[?|?%not_masked_elem_of]|[?|?%not_masked_elem_of]]; auto.
  - intros ? (w & -> & ->)%fmap_Some. destruct (Hw w eq_refl) as [Hlen Hall].
    split.
    + rewrite !length_app, !not_masked_length by lia. lia.
    + apply Forall_app. split; [done|].
      rewrite Forall_forall in Hall. apply Forall_forall.
      intros x Hx%not_masked_elem_of. by apply Hall.
  - intros ? (e & -> & ->)%fmap_Some. specialize (He e eq_refl).
    rewrite !length_app, !not_masked_length by lia. lia.
Qed.

Lemma symmetrized_arrays_stay_valid_witness :
  validate [0; 1; 2; 0] [1; 2; 2] nodes_ABC ["A"; "B"; "C"] (Some [7; 7; 8])
    (Some [0; 1; 0; 1]) (Some [f64_1; f64_2; f64_3; f64_1]) = Ok () ∧
  validate [0; 1; 2; 0; 1; 2] [1; 2; 2; 0; 1] nodes_ABC ["A"; "B"; "C"]
    (Some [7; 7; 8]) (Some [0; 1; 0; 1; 0; 1])
    (Some [f64_1; f64_2; f64_3; f64_1; f64_1; f64_2]) = Ok ().
Proof.
  split; [reflexivity|].
  apply (symmetrized_arrays_stay_valid [0; 1; 2; 0] [1; 2; 2] nodes_ABC
           ["A"; "B"; "C"] (Some [7; 7; 8]) (Some [0; 1; 0; 1])
           (Some [f64_1; f64_2; f64_3; f64_1])).
  reflexivity.
Defined.

(** ** What the choice of the sort can change *)

(** X14. The implementation of the unstable sort can change only the order
    of edges that share a source. Two implementations of its contract give
    [new_directed] the same kind of outcome on every input (the same error,
    or a panic, for both); when both return a graph, the two graphs have
    the same sorted sources, the same dedup index, the same offset table
    and the same multiset of rows. *)
Theorem sort_implementation_changes_only_ties (H1 H2 : ParSortUnstable)
    srcs dsts nm nrm nt ntm ntrm et etm etrm ws v :
  (∀ e,
     new_directed (H := H1) srcs dsts nm nrm nt ntm ntrm et etm etrm ws v = Err e ↔
     new_directed (H := H2) srcs dsts nm nrm nt ntm ntrm et etm etrm ws v = Err e) ∧
  (new_directed (H := H1) srcs dsts nm nrm nt ntm ntrm et etm etrm ws v = Panic ↔
   new_directed (H := H2) srcs dsts nm nrm nt ntm ntrm et etm etrm ws v = Panic) ∧
  (∀ g1 g2,
     new_directed (H := H1) srcs dsts nm nrm nt ntm ntrm et etm etrm ws v = Ok g1 →
     new_directed (H := H2) srcs dsts nm nrm nt ntm ntrm et etm etrm ws v = Ok g2 →
     sources g1 = sources g2 ∧
     unique_edges g1 = unique_edges g2 ∧
     outbounds g1 = outbounds g2 ∧
     graph_rows g1 ≡ₚ graph_rows g2).
Proof.
  split_and!.
  - intros e. by rewrite !new_directed_Err.
  - by rewrite !new_directed_Panic_iff.
  - intros g1 g2 Hg1 Hg2.
    destruct (new_directed_sources_sorted (H := H1) _ _ _ _ _ _ _ _ _ _ _ _ _ Hg1)
      as [Hsorted1 Hperm1].
    destruct (new_directed_sources_sorted (H := H2) _ _ _ _ _ _ _ _ _ _ _ _ _ Hg2)
      as [Hsorted2 Hperm2].
    pose proof (new_directed_rows (H := H1) _ _ _ _ _ _ _ _ _ _ _ _ _ Hg1) as Hr1.
    pose proof (new_directed_rows (H := H2) _ _ _ _ _ _ _ _ _ _ _ _ _ Hg2) as Hr2.
    apply (new_directed_Ok_inv (H := H1)) in Hg1
      as (_ & _ & _ & _ & _ & Ho1 & Hu1 & _).
    apply (new_directed_Ok_inv (H := H2)) in Hg2
      as (_ & _ & _ & _ & _ & Ho2 & Hu2 & _).
    assert (sources g1 = sources g2) as Hs.
    { apply (Sorted_unique (≤)); [done..|]. by rewrite Hperm1, Hperm2. }
    split_and!; [done|congruence|congruence|by rewrite Hr1, Hr2].
Qed.

Lemma sort_implementation_changes_only_ties_witness :
  ∃ g1 g2,
    new_directed (H := keeping_par_sort) [1; 0; 1; 0] [0; 1; 2; 2] nodes_ABC
      ["A"; "B"; "C"] None None None None None None None None = Ok g1 ∧
    new_directed (H := reversing_par_sort) [1; 0; 1; 0] [0; 1; 2; 2] nodes_ABC
      ["A"; "B"; "C"] None None None None None None None None = Ok g2 ∧
    destinations g1 ≠ destinations g2 ∧
    sources g1 = sources g2 ∧
    unique_edges g1 = unique_edges g2 ∧
    outbounds g1 = outbounds g2 ∧
    graph_rows g1 ≡ₚ graph_rows g2.
Proof.
  eexists. eexists.
  split; [vm_compute; reflexivity|]. split; [vm_compute; reflexivity|].
  split; [discriminate|].
  apply (proj2 (proj2 (sort_implementation_changes_only_ties
           keeping_par_sort reversing_par_sort
           [1; 0; 1; 0] [0; 1; 2; 2] nodes_ABC ["A"; "B"; "C"]
           None None None None None None None None)));
    vm_compute; reflexivity.
Defined.

(** ** Input already sorted by strictly ascending sources *)

Section Presorted.
Context `{ParSortUnstable}.

Lemma Sorted_by_key {A} (key : A → nat) (l : list A) :
  Sorted (≤) (key <$> l) → Sorted (λ a b, key a ≤ key b) l.
Proof.
  induction l as [|a l IH]; simpl; [constructor|].
  inversion 1 as [|? ? Hl Hhd]; subst. constructor; [by apply IH|].
  destruct l as [|b l]; simpl in *; constructor. by inversion Hhd.
Qed.

Lemma sort_presorted (srcs : list NodeT) :
  Sorted (<) srcs →
  par_sort_unstable_by_key snd (enumerate srcs) = enumerate srcs.
Proof.
  intros Hs.
  assert (Hnd : NoDup srcs).
  { apply Sorted_StronglySorted in Hs; [|apply _].
    induction Hs as [|a l _ IH Ha]; constructor; [|done].
    intros Hin. rewrite Forall_forall in Ha. apply Ha in Hin. lia. }
  assert (Hle : Sorted (≤) srcs).
  { rewrite <- (list_fmap_id srcs).
    eapply (Sorted_fmap id (<) (≤)); [|exact Hs]. intros a b. simpl. lia. }
  assert (Transitive (key_le snd)) by (intros a b c; unfold key_le; lia).
  apply (Sorted_unique_strong (key_le snd)).
  - intros x1 x2 Hx1 Hx2 H12 H21. unfold key_le in *.
    rewrite par_sort_permutation in Hx1.
    apply (NoDup_fmap_eq snd (enumerate srcs)); [|done|done|lia].
    by rewrite snd_enumerate.
  - apply par_sort_sorted.
  - apply Sorted_by_key. by rewrite snd_enumerate.
  - apply par_sort_permutation.
Qed.

Lemma permuted_by_seq {A} (v v' : list A) n :
  permuted_by (seq 0 n) v v' → v' = take n v.
Proof.
  intros Hperm. apply list_eq. intros i.
  destruct (decide (i < n)) as [Hi|Hi].
  - rewrite lookup_take_lt by done.
    destruct (permuted_by_lookup (seq 0 n) v v' i i Hperm) as [_ Hv'];
      [by apply lookup_seq_lt | done].
  - rewrite lookup_take_ge by lia. apply lookup_ge_None_2.
    rewrite (permuted_by_length _ _ _ Hperm), length_seq. lia.
Qed.

End Presorted.

(** X15. When the sources of an input accepted by [new_directed] are
    strictly ascending, the builder leaves the edges in place: the sorted
    sources are the sources, the sorted destinations are the first
    [len(sources)] destinations, and every pair [(s, d)] of the dedup index
    is mapped to a position [p] of the sorted arrays with
    [sources[p] = s] and [destinations[p] = d]. *)
Theorem new_directed_keeps_presorted_input `{ParSortUnstable}
    srcs dsts nm nrm nt ntm ntrm et etm etrm ws v g :
  new_directed srcs dsts nm nrm nt ntm ntrm et etm etrm ws v = Ok g →
  Sorted (<) srcs →
  sources g = srcs ∧
  destinations g = take (length srcs) dsts ∧
  ∀ s d p,
    unique_edges g !! (s, d) = Some p →
    sources g !! p = Some s ∧ destinations g !! p = Some d.
Proof.
  intros Hg Hsorted.
  apply new_directed_Ok_inv in Hg as (_ & Hs & Hd & _ & _ & _ & Hu & _).
  unfold sort_indices in Hs, Hd.
  rewrite sort_presorted, fst_enumerate in Hs, Hd by done.
  apply permuted_by_seq in Hs, Hd. rewrite firstn_all in Hs.
  split_and!; [done|done|].
  intros s d p. rewrite Hu. intros [Hp _]%dedup_index_lookup.
  apply lookup_zip_with_Some in Hp as (s' & d' & [= <- <-] & Hsp & Hdp).
  rewrite Hs, Hd. split; [done|].
  rewrite lookup_take_lt; [done|]. by apply lookup_lt_Some in Hsp.
Qed.

Lemma new_directed_keeps_presorted_input_witness :
  ∃ g,
    new_directed (H := reversing_par_sort) [0; 1; 2] [2; 0; 0; 1] nodes_ABC
      ["A"; "B"; "C"] None None None None None None None None = Ok g ∧
    sources g = [0; 1; 2] ∧
    destinations g = [2; 0; 0] ∧
    ∀ s d p,
      unique_edges g !! (s, d) = Some p →
      sources g !! p = Some s ∧ destinations g !! p = Some d.
Proof.
  eexists. split; [vm_compute; reflexivity|].
  apply (new_directed_keeps_presorted_input (H := reversing_par_sort)
           [0; 1; 2] [2; 0; 0; 1] nodes_ABC ["A"; "B"; "C"]
           None None None None None None None None).
  - vm_compute. reflexivity.
  - repeat constructor.
Defined.
